(** * pi-button-pipe: a shallow embedding of [main.c]

    The program watches a set of GPIO pins through the sysfs pseudo files,
    debounces the interrupts it receives and writes one text line per event
    to a named pipe (or to the console in debug mode).

    The embedding follows the C source function by function:
    - C [int] is a 32-bit two's-complement integer, [time_t] a 64-bit one;
      both are carried in [Z] with the wrap-around written out;
    - everything the program learns from the outside world while it handles
      one interrupt (the clock readings, the bytes of the [value] file) is
      collected in an [observation]; the handler is a function of the
      program state and of that observation;
    - start-up and termination code, which talks to the file system and may
      call [exit], lives in a small trace-and-exit monad [proc]. *)

From Stdlib Require Import ZArith Lia Bool Ascii String.
From stdpp Require Import base numbers list strings pretty.

Open Scope Z_scope.

(** ** Machine integers *)

Module CInt.

(** Two's-complement reduction of [z] to [bits] bits. *)
Definition wrap (bits : Z) (z : Z) : Z :=
  (z + 2 ^ (bits - 1)) mod 2 ^ bits - 2 ^ (bits - 1).

Definition int_min : Z := - 2 ^ 31.
Definition int_max : Z := 2 ^ 31 - 1.
Definition time_min : Z := - 2 ^ 63.
Definition time_max : Z := 2 ^ 63 - 1.

Definition in_int (z : Z) : Prop := int_min <= z <= int_max.
Definition in_time (z : Z) : Prop := time_min <= z <= time_max.

(** Conversion to, and arithmetic on, [int]. *)
Definition to_int (z : Z) : Z := wrap 32 z.
Definition int_sub (a b : Z) : Z := to_int (a - b).

(** Arithmetic on [time_t]. *)
Definition to_time (z : Z) : Z := wrap 64 z.
Definition time_sub (a b : Z) : Z := to_time (a - b).
Definition time_neg (a : Z) : Z := to_time (- a).

(** Conversion of a [double] holding the integral value [d] to [int].
    Inside the range of [int] the conversion is exact.  Outside it C
    leaves the result undefined; [oob] is whatever [int] the hardware
    hands back in that case (ARM saturates, x86 yields [INT_MIN]). *)
Definition double_to_int (oob : Z) (d : Z) : Z :=
  if (int_min <=? d) && (d <=? int_max) then d else to_int oob.

End CInt.

Import CInt.

(** ** Tuneable parameters and constants of [main.c] *)

Definition SEC_PER_YEAR : Z := 31536000.
Definition CLOCK_ERROR_SECONDS : Z := SEC_PER_YEAR.
Definition MAX_PINS : nat := 20.
Definition BOUNCE_MSEC : Z := 300.
Definition EDGE_RISING : Z := 1.
Definition EDGE_FALLING : Z := 2.

(** The newline character of the C string literals. *)
Definition nl : string := String "010"%char EmptyString.

(** [printf]'s [%d]. *)
Definition fmt_d (z : Z) : string := pretty z.

(** ** Globals and the locals of [main] that the event loop reads *)

Record config := {
  pins : list Z;          (* pins[0 .. npins-1] *)
  no_export : bool;
  edge : Z;
  bounce_time : Z;
  debug : bool            (* pipe == NULL exactly in debug mode *)
}.

Definition npins (cfg : config) : nat := length (pins cfg).

(** The mutable locals of [main] used by the loop. *)
Record state := {
  start : Z;              (* time_t start *)
  ticks : list Z          (* int ticks[MAX_PINS] *)
}.

(** ** The outside world as seen while one interrupt is handled *)

Record observation := {
  obs_time_cmp : Z;       (* time (NULL), first occurrence in abs(...) *)
  obs_time_val : Z;       (* time (NULL), second occurrence in abs(...) *)
  obs_time_reset : Z;     (* time (NULL) assigned to start *)
  obs_tv_sec : Z;         (* gettimeofday: tv.tv_sec *)
  obs_tv_usec : Z;        (* gettimeofday: tv.tv_usec *)
  obs_conv_oob : Z;       (* result of an out-of-range double-to-int *)
  obs_value : option string
    (* bytes the value file would deliver; None when open or read fails *)
}.

(** What the loop does to the outside world. *)
Inductive action :=
| ARead (i : nat)               (* read (fdset[i].fd, buff, sizeof(buff)) *)
| AUsleep (usec : Z)            (* usleep (2000) *)
| AGetPinState (pin : Z)        (* get_pin_state (pin) *)
| AFprintfPipe (text : string)  (* fprintf (pipe, ...) *)
| AFflushPipe                   (* fflush (pipe) *)
| APrintf (text : string).      (* printf (...) *)

(** ** get_pin_state *)

(** [read (fd, buff, sizeof(buff))] with [char buff[3]]: the number of bytes
    delivered and the bytes themselves; -1 when the file could not be
    opened or read. *)
Definition read_value (content : option string) : Z * list ascii :=
  match content with
  | None => (-1, [])
  | Some s =>
      let got := take 3 (list_ascii_of_string s) in
      (Z.of_nat (length got), got)
  end.

(** [buff[0]]; [char] is unsigned on the ARM targets of the program. *)
Definition char_code (c : ascii) : Z := Z.of_nat (nat_of_ascii c).

Definition get_pin_state (content : option string) : Z :=
  let '(rc, buff) := read_value content in
  if rc =? 2 then
    match buff with
    | c :: _ => char_code c - char_code "0"%char
    | [] => -1
    end
  else -1.

(** ** The body of the event loop *)

(** [abs (time (NULL) - start)] after macro expansion of
    [#define abs(x) ((x) > 0 ? (x) : (-x))]:
    [((time (NULL) - start) > 0 ? (time (NULL) - start)
                                : (-time (NULL) - start))]. *)
Definition abs_time_minus_start (st : state) (obs : observation) : Z :=
  if time_sub (obs_time_cmp obs) (start st) >? 0
  then time_sub (obs_time_val obs) (start st)
  else time_sub (time_neg (obs_time_val obs)) (start st).

Definition clock_error (st : state) (obs : observation) : bool :=
  abs_time_minus_start st obs >? CLOCK_ERROR_SECONDS.

(** [int msec = tv.tv_usec / 1000;] *)
Definition msec_of (obs : observation) : Z :=
  to_int (Z.quot (obs_tv_usec obs) 1000).

(** [int total_msec = (tv.tv_sec - start) * 1000.0 + msec;]
    The product and the sum are computed in [double]; whenever their exact
    value fits an [int] every intermediate value is exactly representable,
    so the exact integer is what gets converted. *)
Definition total_msec (st : state) (obs : observation) : Z :=
  double_to_int (obs_conv_oob obs)
    (time_sub (obs_tv_sec obs) (start st) * 1000 + msec_of obs).

Definition tick (st : state) (i : nat) : Z := default 0 (ticks st !! i).
Definition pin_of (cfg : config) (i : nat) : Z := default 0 (pins cfg !! i).

(** [total_msec - ticks[i] > bounce_time && total_msec > 1000] *)
Definition debounce_passed (cfg : config) (st : state) (i : nat) (tm : Z) : bool :=
  (int_sub tm (tick st i) >? bounce_time cfg) && (tm >? 1000).

(** [(state == 0 && (edge & EDGE_FALLING)) || (state == 1 && (edge & EDGE_RISING))] *)
Definition edge_selected (cfg : config) (pin_state : Z) : bool :=
  ((pin_state =? 0) && negb (Z.land (edge cfg) EDGE_FALLING =? 0))
  || ((pin_state =? 1) && negb (Z.land (edge cfg) EDGE_RISING =? 0)).

Definition both_edges (cfg : config) : bool :=
  edge cfg =? Z.lor EDGE_FALLING EDGE_RISING.

(** The text of one event. *)
Definition event_text (cfg : config) (pin pin_state : Z) : string :=
  if both_edges cfg
  then fmt_d pin +:+ " " +:+ fmt_d pin_state +:+ nl
  else fmt_d pin +:+ nl.

(** The innermost [if]: write the event to the pipe, or to the console. *)
Definition emit (cfg : config) (pin pin_state : Z) : list action :=
  if edge_selected cfg pin_state then
    if debug cfg
    then [APrintf (event_text cfg pin pin_state)]
    else [AFprintfPipe (event_text cfg pin pin_state); AFflushPipe]
  else [].

(** The body of [if (fdset[i].revents & POLLPRI)]. *)
Definition handle_line (cfg : config) (st : state) (i : nat) (obs : observation)
  : state * list action :=
  let pin := pin_of cfg i in
  if clock_error st obs then
    ({| start := obs_time_reset obs; ticks := ticks st |}, [ARead i])
  else
    let tm := total_msec st obs in
    if debounce_passed cfg st i tm then
      let pin_state := get_pin_state (obs_value obs) in
      ({| start := start st; ticks := <[i := tm]> (ticks st) |},
       [ARead i; AUsleep 2000; AGetPinState pin] ++ emit cfg pin pin_state)
    else (st, [ARead i]).

(** One handled interrupt, as the history of a run records it. *)
Record handled := {
  h_line : nat;
  h_actions : list action;
  h_after : state
}.

(** [for (i = 0; i < npins; i++) if (fdset[i].revents & POLLPRI) ...]:
    [revents] holds, for the slots from [i] on, the observation made while
    the slot is handled, or [None] when the slot did not signal. *)
Fixpoint scan_lines (cfg : config) (i : nat) (revents : list (option observation))
    (st : state) : state * list handled :=
  match revents with
  | [] => (st, [])
  | None :: rest => scan_lines cfg (S i) rest st
  | Some obs :: rest =>
      let '(st1, acts) := handle_line cfg st i obs in
      let '(st2, hs) := scan_lines cfg (S i) rest st1 in
      (st2, {| h_line := i; h_actions := acts; h_after := st1 |} :: hs)
  end.

(** One iteration of [for (;;)]: [poll] reports on the first [npins] slots. *)
Definition wake_cycle (cfg : config) (st : state) (revents : list (option observation))
  : state * list handled :=
  scan_lines cfg 0 (take (npins cfg) revents) st.

(** Any number of iterations. *)
Fixpoint run (cfg : config) (st : state) (cycles : list (list (option observation)))
  : state * list handled :=
  match cycles with
  | [] => (st, [])
  | c :: rest =>
      let '(st1, h1) := wake_cycle cfg st c in
      let '(st2, h2) := run cfg st1 rest in
      (st2, h1 ++ h2)
  end.

(** Reading a history. *)
Definition is_sample (a : action) : bool :=
  match a with AGetPinState _ => true | _ => false end.

Definition text_of (a : action) : option string :=
  match a with
  | AFprintfPipe s => Some s
  | APrintf s => Some s
  | _ => None
  end.

(** The pin was sampled: the interrupt passed the debounce test. *)
Definition accepted (acts : list action) : bool := existsb is_sample acts.

(** The event lines written. *)
Definition emitted (acts : list action) : list string := omap text_of acts.

Definition samples (acts : list action) : nat := length (filter (fun a => is_sample a = true) acts).

Definition all_actions (hs : list handled) : list action :=
  concat (map h_actions hs).

(** The times at which interrupts of line [l] were accepted, oldest first. *)
Definition accepted_times (l : nat) (hs : list handled) : list Z :=
  omap (fun h =>
          if (h_line h =? l)%nat && accepted (h_actions h)
          then Some (tick (h_after h) l) else None) hs.

(** [memset (ticks, 0, sizeof(ticks))] *)
Definition initial_state (now : Z) : state :=
  {| start := now; ticks := replicate MAX_PINS 0 |}.

(** ** Start-up and termination: code that may call [exit] *)

(** The signals whose handler is [quit_signal]. *)
Inductive signal := SIGQUIT | SIGTERM | SIGHUP | SIGINT | SIGPIPE.

(** What the process does to the file system and its standard streams. *)
Inductive syscall :=
| SysWrite (file text : string)   (* fopen (file, "w"); fprintf (f, text); fclose (f) *)
| SysFopenFailed (file : string)  (* fopen (file, "w") returned NULL *)
| SysOpen (path : string)         (* open (path, O_RDONLY|O_NONBLOCK) returned a descriptor *)
| SysOpenFailed (path : string)   (* open (...) returned a negative value *)
| SysSignal (signum : signal)     (* signal (signum, quit_signal) *)
| SysMkfifo (path : string)       (* mkfifo (path, 0777) *)
| SysFopenPipe (path : string)    (* fopen (path, "w") returned the pipe *)
| SysStdout (text : string)
| SysStderr (text : string).

(** The file system: whether an [fopen] or [open] succeeds may depend on
    everything the process did so far. *)
Record env := {
  fopen_ok : list syscall -> string -> bool;
  open_ok : list syscall -> string -> bool;
  strerror_errno : string
}.

Inductive outcome (A : Type) :=
| Returns (a : A)
| Exits (code : Z).
Arguments Returns {A} a.
Arguments Exits {A} code.

(** A computation extends the log of system calls and either returns or
    leaves the process through [exit]. *)
Definition proc (A : Type) : Type := list syscall -> list syscall * outcome A.

Global Instance proc_ret : MRet proc := fun A a log => (log, Returns a).

Global Instance proc_bind : MBind proc := fun A B k m log =>
  match m log with
  | (log1, Returns a) => k a log1
  | (log1, Exits c) => (log1, Exits c)
  end.

Definition exit {A} (code : Z) : proc A := fun log => (log, Exits code).

Definition call (c : syscall) : proc unit := fun log => (log ++ [c], Returns tt).

(** [for] over the pins, stopping as soon as the body exits. *)
Fixpoint for_each {A} (body : A -> proc unit) (l : list A) : proc unit :=
  match l with
  | [] => mret tt
  | x :: rest => body x ;; for_each body rest
  end.

(** The status the parent sees: the low eight bits of the argument of [exit]. *)
Definition exit_status (code : Z) : Z := Z.land code 255.

Section Lifecycle.

Variable E : env.
Variable argv0 : string.
Variable VERSION : string.   (* defined on the compiler's command line *)

Definition write_to_file (file text : string) : proc unit :=
  fun log =>
    if fopen_ok E log file
    then call (SysWrite file text) log
    else (call (SysFopenFailed file) ;;
          call (SysStderr ("Can't write to " +:+ file +:+ ": "
                           +:+ strerror_errno E +:+ nl)) ;;
          exit (-1)) log.

Definition unexport_pins (ps : list Z) : proc unit :=
  for_each (fun pin => write_to_file "/sys/class/gpio/unexport" (fmt_d pin)) ps.

Definition quit_signal (cfg : config) : proc unit :=
  (if no_export cfg then mret tt else unexport_pins (pins cfg)) ;;
  exit 0.

Definition gpio_file (pin : Z) (name : string) : string :=
  "/sys/class/gpio/gpio" +:+ fmt_d pin +:+ "/" +:+ name.

Definition export_pins (ps : list Z) : proc unit :=
  for_each (fun pin =>
              write_to_file "/sys/class/gpio/export" (fmt_d pin) ;;
              write_to_file (gpio_file pin "direction") "in" ;;
              write_to_file (gpio_file pin "edge") "both") ps.

Definition show_version : proc unit :=
  call (SysStdout (argv0 +:+ " version " +:+ VERSION +:+ nl)) ;;
  call (SysStdout ("GPIO button watcher for Raspberry Pi" +:+ nl)) ;;
  call (SysStdout ("Copyright (c)2014-2020 Kevin Boone" +:+ nl)) ;;
  call (SysStdout ("Distributed under the terms of the GPL, v3.0" +:+ nl)).

Definition show_short_usage : proc unit :=
  call (SysStderr ("Usage: " +:+ argv0 +:+ " [-dehunv] pin# pin#..." +:+ nl)).

Definition show_long_usage : proc unit :=
  for_each (fun line => call (SysStdout (line +:+ nl)))
    [ "Usage: " +:+ argv0 +:+ " [-dehunv] pin# pin#...";
      "  -b N         : bounce time, in millseconds";
      "  -d           : debug mode -- output to console, not pipe";
      "  -e           : export pins only";
      "  -f           : falling edge only";
      "  -h           : show this message";
      "  -n           : no export/unexport";
      "  -r           : rising edge only";
      "  -u           : unexport pins only";
      "  -v           : show version";
      "For more information, see http://kevinboone.net/pi-button-pipe.html" ].

(** What [getopt (argc, argv, "dehnuvrfb:")] returns, one entry per call;
    [-b] carries [atoi (optarg)]. *)
Inductive option_char :=
| OptH | OptB (n : Z) | OptD | OptE | OptN | OptU | OptR | OptF | OptV
| OptOther.

(** The variables the option loop assigns. *)
Record settings := {
  s_bounce_time : Z;
  s_debug : bool;
  s_export_only : bool;
  s_no_export : bool;
  s_unexport_only : bool;
  s_edge : Z
}.

Definition default_settings : settings :=
  {| s_bounce_time := BOUNCE_MSEC; s_debug := false; s_export_only := false;
     s_no_export := false; s_unexport_only := false;
     s_edge := Z.lor EDGE_RISING EDGE_FALLING |}.

(** One turn of the [switch] in the option loop. *)
Definition set_option (s : settings) (c : option_char) : proc settings :=
  match c with
  | OptH => show_long_usage ;; exit (-1)
  | OptB n => mret {| s_bounce_time := n; s_debug := s_debug s;
                     s_export_only := s_export_only s; s_no_export := s_no_export s;
                     s_unexport_only := s_unexport_only s; s_edge := s_edge s |}
  | OptD => mret {| s_bounce_time := s_bounce_time s; s_debug := true;
                   s_export_only := s_export_only s; s_no_export := s_no_export s;
                   s_unexport_only := s_unexport_only s; s_edge := s_edge s |}
  | OptE => mret {| s_bounce_time := s_bounce_time s; s_debug := s_debug s;
                   s_export_only := true; s_no_export := s_no_export s;
                   s_unexport_only := s_unexport_only s; s_edge := s_edge s |}
  | OptN => mret {| s_bounce_time := s_bounce_time s; s_debug := s_debug s;
                   s_export_only := s_export_only s; s_no_export := true;
                   s_unexport_only := s_unexport_only s; s_edge := s_edge s |}
  | OptU => mret {| s_bounce_time := s_bounce_time s; s_debug := s_debug s;
                   s_export_only := s_export_only s; s_no_export := s_no_export s;
                   s_unexport_only := true; s_edge := s_edge s |}
  | OptR => mret {| s_bounce_time := s_bounce_time s; s_debug := s_debug s;
                   s_export_only := s_export_only s; s_no_export := s_no_export s;
                   s_unexport_only := s_unexport_only s; s_edge := EDGE_RISING |}
  | OptF => mret {| s_bounce_time := s_bounce_time s; s_debug := s_debug s;
                   s_export_only := s_export_only s; s_no_export := s_no_export s;
                   s_unexport_only := s_unexport_only s; s_edge := EDGE_FALLING |}
  | OptV => show_version ;; exit (-1)
  | OptOther => show_short_usage ;; exit (-1)
  end.

Fixpoint option_loop (s : settings) (opts : list option_char) : proc settings :=
  match opts with
  | [] => mret s
  | c :: rest => s1 ← set_option s c; option_loop s1 rest
  end.

(** The loop that opens the [value] file of every pin. *)
Definition open_value (pin : Z) : proc unit :=
  fun log =>
    let s := gpio_file pin "value" in
    if open_ok E log s
    then call (SysOpen s) log
    else (call (SysOpenFailed s) ;;
          call (SysStderr ("Can't open GPIO device " +:+ s +:+ nl)) ;;
          exit (-1)) log.

Definition install_handlers : proc unit :=
  for_each (fun s => call (SysSignal s))
    [SIGQUIT; SIGTERM; SIGHUP; SIGINT; SIGPIPE].

Definition DEFAULT_PIPE_FILENAME : string := "/tmp/pi-buttons".

(** [pipe = fopen (pipe_filename, "w")] and the test that follows. *)
Definition fopen_pipe : proc unit :=
  fun log =>
    if fopen_ok E log DEFAULT_PIPE_FILENAME
    then call (SysFopenPipe DEFAULT_PIPE_FILENAME) log
    else (call (SysFopenFailed DEFAULT_PIPE_FILENAME) ;;
          call (SysStderr ("Can't open pipe " +:+ DEFAULT_PIPE_FILENAME
                           +:+ " for writing" +:+ nl)) ;;
          exit (-1)) log.

Definition open_pipe (dbg : bool) : proc unit :=
  if dbg then mret tt
  else call (SysMkfifo DEFAULT_PIPE_FILENAME) ;; fopen_pipe.

(** [main] up to the entry of [for (;;)]: [opts] are the options [getopt]
    finds, [args] the remaining arguments after [atoi], [now] the value
    of [time (NULL)].  It returns the configuration and the state with
    which the event loop starts. *)
Definition main (opts : list option_char) (args : list Z) (now : Z)
  : proc (config * state) :=
  s ← option_loop default_settings opts;
  let nargs := length args in
  (if (nargs <? 1)%nat then show_short_usage ;; exit (-1) else mret tt) ;;
  (if (MAX_PINS <? nargs)%nat
   then call (SysStderr (argv0 +:+ ": too many pins specified" +:+ nl)) ;; exit (-1)
   else mret tt) ;;
  (if s_unexport_only s then unexport_pins args ;; exit 0 else mret tt) ;;
  (if s_export_only s then export_pins args ;; exit 0 else mret tt) ;;
  (if s_no_export s then mret tt else export_pins args) ;;
  for_each open_value args ;;
  install_handlers ;;
  open_pipe (s_debug s) ;;
  mret ({| pins := args; no_export := s_no_export s; edge := s_edge s;
           bounce_time := s_bounce_time s; debug := s_debug s |},
        initial_state now).

End Lifecycle.

(** A signal arrives while the event loop runs: the handler installed for
    it is called. *)
Definition deliver (E : env) (cfg : config) (s : signal) : proc unit :=
  match s with
  | SIGQUIT | SIGTERM | SIGHUP | SIGINT | SIGPIPE => quit_signal E cfg
  end.

(** Reading a log. *)
Definition is_acquisition (c : syscall) : bool :=
  match c with
  | SysWrite _ _ | SysFopenFailed _ | SysOpen _ | SysOpenFailed _
  | SysMkfifo _ | SysFopenPipe _ => true
  | _ => false
  end.

Definition released (c : syscall) : option string :=
  match c with
  | SysWrite file text =>
      if String.eqb file "/sys/class/gpio/unexport" then Some text else None
  | _ => None
  end.

(** The pins written to the [unexport] file, in order. *)
Definition releases (log : list syscall) : list string := omap released log.

(** * Vocabulary of the properties *)

(** Every recorded time is a non-negative [int]: the array starts zeroed
    and is only ever assigned a [total_msec] that exceeded 1000. *)
Definition ticks_ok (st : state) : Prop :=
  Forall (fun t => 0 <= t <= int_max) (ticks st).

(** Every element of [l] lies more than [b] after its predecessor, the
    first one after [prev]. *)
Fixpoint chain (b prev : Z) (l : list Z) : Prop :=
  match l with
  | [] => True
  | t :: rest => t - prev > b /\ chain b t rest
  end.

(** The last element of [l], or [prev] when there is none. *)
Definition last_from (prev : Z) (l : list Z) : Z := fold_left (fun _ t => t) l prev.

(** No entry of [l] touches a file. *)
Definition no_acquisition (l : list syscall) : Prop :=
  Forall (fun c => is_acquisition c = false) l.

(** [m] always leaves through [exit (-1)], touching no file on the way. *)
Definition aborts {A} (m : proc A) : Prop :=
  forall log, exists l, m log = (log ++ l, Exits (-1)) /\ no_acquisition l.

(** [m] touches no file, and if it exits it does so through [exit (-1)]. *)
Definition harmless {A} (m : proc A) : Prop :=
  forall log, exists l,
    no_acquisition l
    /\ (m log = (log ++ l, Exits (-1)) \/ exists a, m log = (log ++ l, Returns a)).

(** [m] writes nothing to the [unexport] file. *)
Definition keeps_releases {A} (m : proc A) : Prop :=
  forall log, releases (m log).1 = releases log.

(** Pins 17 and 27, both edges, the default bounce time, output to the pipe. *)
Definition example_cfg : config :=
  {| pins := [17; 27]; no_export := false;
     edge := Z.lor EDGE_RISING EDGE_FALLING;
     bounce_time := BOUNCE_MSEC; debug := false |}.

(** Rising edges only, otherwise as [example_cfg]. *)
Definition rising_cfg : config :=
  {| pins := [17; 27]; no_export := false; edge := EDGE_RISING;
     bounce_time := BOUNCE_MSEC; debug := false |}.

(** An observation in which every clock reading shows the same second. *)
Definition observe (sec usec : Z) (value : option string) : observation :=
  {| obs_time_cmp := sec; obs_time_val := sec; obs_time_reset := sec;
     obs_tv_sec := sec; obs_tv_usec := usec; obs_conv_oob := 0;
     obs_value := value |}.

(** A file system in which everything can be opened. *)
Definition all_ok : env :=
  {| fopen_ok := fun _ _ => true; open_ok := fun _ _ => true;
     strerror_errno := EmptyString |}.

(** A file system in which the [value] files cannot be opened. *)
Definition value_unreadable : env :=
  {| fopen_ok := fun _ _ => true; open_ok := fun _ _ => false;
     strerror_errno := "Permission denied" |}.

(** A file system in which the [unexport] file cannot be written. *)
Definition unexport_unwritable : env :=
  {| fopen_ok := fun _ file => negb (String.eqb file "/sys/class/gpio/unexport");
     open_ok := fun _ _ => true;
     strerror_errno := "Permission denied" |}.

(** The format the specification expects of a [value] file: exactly one
    digit followed by a newline. *)
Definition expected_format (s : string) : bool :=
  match list_ascii_of_string s with
  | [d; t] =>
      (48 <=? char_code d) && (char_code d <=? 57) && (char_code t =? 10)
  | _ => false
  end.

(** A recorded time is either the initial zero or a later acceptance. *)
Definition fresh_or_late (t : Z) : Prop := t = 0 \/ (1000 < t <= int_max).

(** The lines of the interrupts a history records, in the order handled. *)
Definition lines_of (hs : list handled) : list nat := map h_line hs.

(** Every write to the pipe is followed at once by a flush; [pending]
    says that a write is waiting for its flush. *)
Fixpoint well_flushed (pending : bool) (acts : list action) : bool :=
  match acts with
  | [] => negb pending
  | AFflushPipe :: rest => well_flushed false rest
  | AFprintfPipe _ :: rest => negb pending && well_flushed true rest
  | _ :: rest => negb pending && well_flushed false rest
  end.

Definition is_pipe_action (a : action) : bool :=
  match a with AFprintfPipe _ | AFflushPipe => true | _ => false end.

Definition is_console_action (a : action) : bool :=
  match a with APrintf _ => true | _ => false end.

(** The indices, counted from [i], of the slots that signalled. *)
Fixpoint signalled_from (i : nat) (revents : list (option observation)) : list nat :=
  match revents with
  | [] => []
  | None :: rest => signalled_from (S i) rest
  | Some _ :: rest => i :: signalled_from (S i) rest
  end.

(** [l] is strictly increasing and starts at [lo] or above. *)
Fixpoint increasing_from (lo : nat) (l : list nat) : Prop :=
  match l with
  | [] => True
  | x :: rest => (lo <= x)%nat /\ increasing_from (S x) rest
  end.

(** Options that only assign a variable: all but [-h], [-v] and the
    ones [getopt] does not know. *)
Definition is_setting (c : option_char) : bool :=
  match c with
  | OptH | OptV | OptOther => false
  | _ => true
  end.

Definition is_opt_d (c : option_char) : bool :=
  match c with OptD => true | _ => false end.

Definition is_opt_e (c : option_char) : bool :=
  match c with OptE => true | _ => false end.

Definition is_opt_n (c : option_char) : bool :=
  match c with OptN => true | _ => false end.

Definition is_opt_u (c : option_char) : bool :=
  match c with OptU => true | _ => false end.

(** The edge policy after the options: the last of [-r] and [-f], or [e]. *)
Definition last_edge (e : Z) (opts : list option_char) : Z :=
  fold_left (fun e c =>
               match c with
               | OptR => EDGE_RISING
               | OptF => EDGE_FALLING
               | _ => e
               end) opts e.

(** The bounce time after the options: that of the last [-b], or [b]. *)
Definition last_bounce (b : Z) (opts : list option_char) : Z :=
  fold_left (fun b c => match c with OptB n => n | _ => b end) opts b.

(** What the options make of the settings [s], read off the option list
    as a whole. *)
Definition settings_after (s : settings) (opts : list option_char) : settings :=
  {| s_bounce_time := last_bounce (s_bounce_time s) opts;
     s_debug := s_debug s || existsb is_opt_d opts;
     s_export_only := s_export_only s || existsb is_opt_e opts;
     s_no_export := s_no_export s || existsb is_opt_n opts;
     s_unexport_only := s_unexport_only s || existsb is_opt_u opts;
     s_edge := last_edge (s_edge s) opts |}.

(** The three writes of [export_pins] for one pin. *)
Definition export_writes (pin : Z) : list syscall :=
  [ SysWrite "/sys/class/gpio/export" (fmt_d pin);
    SysWrite (gpio_file pin "direction") "in";
    SysWrite (gpio_file pin "edge") "both" ].

Definition unexport_write (pin : Z) : syscall :=
  SysWrite "/sys/class/gpio/unexport" (fmt_d pin).

Definition open_value_call (pin : Z) : syscall :=
  SysOpen (gpio_file pin "value").

Definition exported (c : syscall) : option string :=
  match c with
  | SysWrite file text =>
      if String.eqb file "/sys/class/gpio/export" then Some text else None
  | _ => None
  end.

(** The pins written to the [export] file, in order. *)
Definition exports (log : list syscall) : list string := omap exported log.

(** Every exit of [m] carries a code that satisfies [P]. *)
Definition exit_codes {A} (P : Z -> Prop) (m : proc A) : Prop :=
  forall log log' c, m log = (log', Exits c) -> P c.

(** A debounce state in which line 0 holds [INT_MAX]. *)
Definition saturated_state : state :=
  {| start := 0; ticks := <[0%nat := int_max]> (replicate MAX_PINS 0) |}.

(** An interrupt some 34 days after a start at time 0, on hardware whose
    conversion saturates. *)
Definition late_observation : observation :=
  {| obs_time_cmp := 3000000; obs_time_val := 3000000; obs_time_reset := 3000000;
     obs_tv_sec := 3000000; obs_tv_usec := 0; obs_conv_oob := int_max;
     obs_value := Some ("1" +:+ nl) |}.

(** The whole milliseconds between the baseline [start] and the reading of
    [gettimeofday]: what [total_msec] is meant to hold. *)
Definition elapsed_ms (st : state) (obs : observation) : Z :=
  (obs_tv_sec obs - start st) * 1000 + obs_tv_usec obs / 1000.

(** The interrupt of [late_observation] on hardware whose conversion of an
    out-of-range [double] yields [INT_MIN] (as x86 does). *)
Definition late_observation_min : observation :=
  {| obs_time_cmp := 3000000; obs_time_val := 3000000; obs_time_reset := 3000000;
     obs_tv_sec := 3000000; obs_tv_usec := 0; obs_conv_oob := int_min;
     obs_value := Some ("1" +:+ nl) |}.

(** An interrupt one minute after [late_observation], on saturating
    hardware. *)
Definition minute_later_observation : observation :=
  {| obs_time_cmp := 3000060; obs_time_val := 3000060; obs_time_reset := 3000060;
     obs_tv_sec := 3000060; obs_tv_usec := 0; obs_conv_oob := int_max;
     obs_value := Some ("0" +:+ nl) |}.

(** * Properties *)

(** ** Machine arithmetic *)

Lemma gtb_false a b : a <= b -> (a >? b) = false.
Proof. intros H. rewrite Z.gtb_ltb. apply Z.ltb_ge. assumption. Qed.

Lemma to_int_id z : in_int z -> to_int z = z.
Proof.
  unfold in_int, int_min, int_max, to_int, wrap.
  change (2 ^ (32 - 1)) with 2147483648.
  change (2 ^ 32) with 4294967296.
  change (2 ^ 31) with 2147483648.
  intros H. rewrite Z.mod_small; lia.
Qed.

Lemma to_int_range z : in_int (to_int z).
Proof.
  unfold in_int, int_min, int_max, to_int, wrap.
  change (2 ^ (32 - 1)) with 2147483648.
  change (2 ^ 32) with 4294967296.
  change (2 ^ 31) with 2147483648.
  pose proof (Z.mod_pos_bound (z + 2147483648) 4294967296). lia.
Qed.

Lemma to_time_id z : in_time z -> to_time z = z.
Proof.
  unfold in_time, time_min, time_max, to_time, wrap.
  change (2 ^ (64 - 1)) with 9223372036854775808.
  change (2 ^ 64) with 18446744073709551616.
  change (2 ^ 63) with 9223372036854775808.
  intros H. rewrite Z.mod_small; lia.
Qed.

Lemma in_int_bounds z : in_int z <-> -2147483648 <= z <= 2147483647.
Proof. unfold in_int, int_min, int_max. change (2 ^ 31) with 2147483648. lia. Qed.

Lemma in_time_bounds z :
  in_time z <-> -9223372036854775808 <= z <= 9223372036854775807.
Proof.
  unfold in_time, time_min, time_max.
  change (2 ^ 63) with 9223372036854775808. lia.
Qed.

Lemma double_to_int_range oob d : in_int (double_to_int oob d).
Proof.
  unfold double_to_int.
  destruct (int_min <=? d) eqn:Hlo; destruct (d <=? int_max) eqn:Hhi; simpl;
    try apply to_int_range.
  unfold in_int. lia.
Qed.

Lemma double_to_int_exact oob d : in_int d -> double_to_int oob d = d.
Proof.
  unfold double_to_int, in_int. intros [Hlo Hhi].
  apply Z.leb_le in Hlo, Hhi. now rewrite Hlo, Hhi.
Qed.

Lemma total_msec_range st obs : in_int (total_msec st obs).
Proof. apply double_to_int_range. Qed.

(** When the clock readings are ordinary and the elapsed time fits an
    [int], [total_msec] is the number of whole milliseconds between the
    baseline [start] and the reading of [gettimeofday]. *)
Lemma total_msec_exact st obs :
  in_time (obs_tv_sec obs - start st) ->
  0 <= obs_tv_usec obs < 1000000 ->
  in_int ((obs_tv_sec obs - start st) * 1000 + obs_tv_usec obs / 1000) ->
  total_msec st obs = (obs_tv_sec obs - start st) * 1000 + obs_tv_usec obs / 1000.
Proof.
  intros Ht Hu Hi. unfold total_msec, msec_of, time_sub.
  rewrite to_time_id by assumption.
  rewrite Z.quot_div_nonneg by lia.
  assert (0 <= obs_tv_usec obs / 1000 < 1000) as Hm.
  { split; [apply Z.div_pos; lia | apply Z.div_lt_upper_bound; lia]. }
  rewrite to_int_id by (apply in_int_bounds; lia).
  now apply double_to_int_exact.
Qed.

(** ** The debounce state *)

Lemma tick_bounds st i : ticks_ok st -> 0 <= tick st i <= int_max.
Proof.
  unfold ticks_ok, tick. intros H.
  destruct (ticks st !! i) as [t|] eqn:Ht; simpl.
  - eapply Forall_lookup_1 in H; eauto.
  - unfold int_max. change (2 ^ 31) with 2147483648. lia.
Qed.

Lemma initial_state_ok now : ticks_ok (initial_state now).
Proof.
  unfold ticks_ok, initial_state; cbn [ticks].
  apply Forall_forall. intros t Ht.
  apply elem_of_replicate in Ht as [-> _].
  unfold int_max. change (2 ^ 31) with 2147483648. lia.
Qed.

Lemma initial_state_length now : length (ticks (initial_state now)) = MAX_PINS.
Proof. apply length_replicate. Qed.

(** On reachable states the test of the source is the test on integers. *)
Lemma debounce_passed_iff cfg st i tm :
  ticks_ok st -> in_int tm ->
  debounce_passed cfg st i tm = true <->
  tm - tick st i > bounce_time cfg /\ tm > 1000.
Proof.
  intros Hok Htm. pose proof (tick_bounds st i Hok) as Hb.
  apply (proj1 (in_int_bounds _)) in Htm.
  unfold int_max in Hb. change (2 ^ 31) with 2147483648 in Hb.
  unfold debounce_passed, int_sub.
  rewrite andb_true_iff, !Z.gtb_gt.
  split; intros [H1 H2]; split; try assumption.
  - rewrite to_int_id in H1 by (apply in_int_bounds; lia). assumption.
  - rewrite to_int_id by (apply in_int_bounds; lia). assumption.
Qed.

Lemma accepted_emit cfg pin s acts :
  accepted (acts ++ emit cfg pin s) = accepted acts.
Proof.
  unfold accepted. rewrite existsb_app.
  unfold emit. destruct (edge_selected cfg s), (debug cfg); simpl;
    now rewrite ?orb_false_r.
Qed.

(** What [handle_line] does in each of its three branches. *)
Lemma handle_line_reset cfg st i obs :
  clock_error st obs = true ->
  handle_line cfg st i obs =
    ({| start := obs_time_reset obs; ticks := ticks st |}, [ARead i]).
Proof. intros H. unfold handle_line. now rewrite H. Qed.

Lemma handle_line_bounce cfg st i obs :
  clock_error st obs = false ->
  debounce_passed cfg st i (total_msec st obs) = false ->
  handle_line cfg st i obs = (st, [ARead i]).
Proof. intros H1 H2. unfold handle_line. now rewrite H1, H2. Qed.

Lemma handle_line_accept cfg st i obs :
  clock_error st obs = false ->
  debounce_passed cfg st i (total_msec st obs) = true ->
  handle_line cfg st i obs =
    ({| start := start st; ticks := <[i := total_msec st obs]> (ticks st) |},
     [ARead i; AUsleep 2000; AGetPinState (pin_of cfg i)]
       ++ emit cfg (pin_of cfg i) (get_pin_state (obs_value obs))).
Proof. intros H1 H2. unfold handle_line. now rewrite H1, H2. Qed.

Lemma tick_insert_same st i v s :
  (i < length (ticks st))%nat ->
  tick {| start := s; ticks := <[i := v]> (ticks st) |} i = v.
Proof.
  intros Hi. unfold tick; simpl.
  now rewrite list_lookup_insert_eq.
Qed.

Lemma tick_insert_other st i j v s :
  i <> j ->
  tick {| start := s; ticks := <[i := v]> (ticks st) |} j = tick st j.
Proof.
  intros Hij. unfold tick; simpl.
  now rewrite list_lookup_insert_ne.
Qed.

(** The debounce test on the program's own variable.  For a signalled
    line whose interrupt passes the clock guard, the interrupt is accepted
    (the pin is sampled and the line's entry of [ticks] becomes
    [total_msec]) exactly when
    [total_msec - ticks[i] > bounce_time] and [total_msec > 1000];
    otherwise nothing changes and nothing is written.  In particular
    nothing is accepted while [total_msec] is at most 1000. *)
Theorem debounce_accepts_iff cfg st i obs :
  ticks_ok st ->
  (i < length (ticks st))%nat ->
  clock_error st obs = false ->
  let tm := total_msec st obs in
  let r := handle_line cfg st i obs in
  (accepted r.2 = true <-> tm - tick st i > bounce_time cfg /\ tm > 1000)
  /\ (accepted r.2 = true ->
      r.1 = {| start := start st; ticks := <[i := tm]> (ticks st) |}
      /\ tick r.1 i = tm)
  /\ (accepted r.2 = false -> r.1 = st /\ emitted r.2 = [])
  /\ (tm <= 1000 -> accepted r.2 = false /\ r.1 = st /\ emitted r.2 = []).
Proof.
  intros Hok Hi Hclk tm r.
  pose proof (debounce_passed_iff cfg st i tm Hok (total_msec_range st obs)) as Hiff.
  destruct (debounce_passed cfg st i tm) eqn:Hd; subst r.
  - rewrite (handle_line_accept cfg st i obs Hclk Hd). simpl.
    fold tm. destruct Hiff as [Hiff _]. specialize (Hiff eq_refl).
    split; [tauto |].
    split; [intros _; split; [reflexivity | now apply tick_insert_same] |].
    split; [discriminate | intros; lia].
  - rewrite (handle_line_bounce cfg st i obs Hclk Hd). simpl.
    split; [split; [discriminate | intros H; apply Hiff in H; discriminate] |].
    split; [discriminate |].
    split; intros; repeat split; reflexivity.
Qed.

(** ** Successive accepted interrupts of one line *)

Lemma chain_app b l1 : forall prev l2,
  chain b prev (l1 ++ l2) <-> chain b prev l1 /\ chain b (last_from prev l1) l2.
Proof.
  induction l1 as [|t l1 IH]; intros prev l2; simpl.
  - tauto.
  - rewrite IH. unfold last_from. simpl. tauto.
Qed.

Lemma last_from_app prev l1 l2 :
  last_from prev (l1 ++ l2) = last_from (last_from prev l1) l2.
Proof. unfold last_from. apply fold_left_app. Qed.

Lemma chain_lookup b (l : list Z) : forall prev (k : nat) t1 t2,
  chain b prev l ->
  l !! k = Some t1 -> l !! S k = Some t2 ->
  t2 - t1 > b.
Proof.
  induction l as [|t l IH]; intros prev k t1 t2 Hc H1 H2.
  - discriminate.
  - destruct Hc as [_ Hc]. destruct k as [|k]; simpl in H1, H2.
    + inversion H1; subst. destruct l as [|t' l]; [discriminate|].
      simpl in H2. inversion H2; subst. apply Hc.
    + eapply IH; eauto.
Qed.

Lemma ticks_ok_insert st i v s :
  ticks_ok st -> 0 <= v <= int_max ->
  ticks_ok {| start := s; ticks := <[i := v]> (ticks st) |}.
Proof.
  unfold ticks_ok; simpl. intros Hok Hv.
  apply Forall_insert; assumption.
Qed.

(** One handled interrupt keeps the debounce state well formed, leaves the
    other lines alone and, when it accepts, moves its own line forward by
    more than the bounce time. *)
Lemma handle_line_step cfg st i obs :
  ticks_ok st ->
  (i < length (ticks st))%nat ->
  let r := handle_line cfg st i obs in
  ticks_ok r.1
  /\ length (ticks r.1) = length (ticks st)
  /\ (forall j, j <> i -> tick r.1 j = tick st j)
  /\ (if accepted r.2
      then tick r.1 i - tick st i > bounce_time cfg
      else tick r.1 i = tick st i).
Proof.
  intros Hok Hi r. subst r.
  destruct (clock_error st obs) eqn:Hclk.
  - rewrite handle_line_reset by assumption. simpl. auto.
  - destruct (debounce_passed cfg st i (total_msec st obs)) eqn:Hd.
    + rewrite handle_line_accept by assumption.
      cbn [fst snd]. rewrite accepted_emit.
      cbn [accepted existsb is_sample orb].
      pose proof (total_msec_range st obs) as Hr.
      apply (debounce_passed_iff cfg st i _ Hok Hr) in Hd as [Hgap Hmin].
      split; [| split; [| split]].
      * apply ticks_ok_insert; [assumption|].
        unfold in_int in Hr. lia.
      * cbn [ticks]. apply length_insert.
      * intros j Hj. apply tick_insert_other. congruence.
      * rewrite tick_insert_same by assumption. assumption.
    + rewrite handle_line_bounce by assumption. simpl. auto.
Qed.

Lemma accepted_times_cons l h hs :
  accepted_times l (h :: hs) =
    (if (h_line h =? l)%nat && accepted (h_actions h)
     then [tick (h_after h) l] else []) ++ accepted_times l hs.
Proof.
  unfold accepted_times. simpl.
  destruct ((h_line h =? l)%nat && accepted (h_actions h)); reflexivity.
Qed.

Lemma accepted_times_app l hs1 hs2 :
  accepted_times l (hs1 ++ hs2) = accepted_times l hs1 ++ accepted_times l hs2.
Proof. unfold accepted_times. apply omap_app. Qed.

(** The invariant of the scan over the slots of one wake-up. *)
Lemma scan_lines_chain cfg l : forall revents i st,
  ticks_ok st ->
  (i + length revents <= length (ticks st))%nat ->
  let r := scan_lines cfg i revents st in
  ticks_ok r.1
  /\ length (ticks r.1) = length (ticks st)
  /\ chain (bounce_time cfg) (tick st l) (accepted_times l r.2)
  /\ tick r.1 l = last_from (tick st l) (accepted_times l r.2).
Proof.
  induction revents as [|[obs|] rest IH]; intros i st Hok Hlen; simpl in *.
  - unfold last_from; simpl; auto.
  - pose proof (handle_line_step cfg st i obs Hok ltac:(lia)) as Hstep.
    simpl in Hstep.
    destruct (handle_line cfg st i obs) as [st1 acts] eqn:Hh. simpl in Hstep.
    destruct Hstep as (Hok1 & Hlen1 & Hother & Hown).
    specialize (IH (S i) st1 Hok1 ltac:(lia)).
    destruct (scan_lines cfg (S i) rest st1) as [st2 hs] eqn:Hs. simpl in IH.
    destruct IH as (Hok2 & Hlen2 & Hchain & Hlast).
    cbn [fst snd]. rewrite accepted_times_cons. cbn [h_line h_actions h_after].
    split; [assumption|]. split; [congruence|].
    destruct (Nat.eqb_spec i l) as [->|Hne].
    + destruct (accepted acts); simpl.
      * unfold last_from in *. simpl. auto.
      * rewrite Hown in Hchain, Hlast. auto.
    + simpl. rewrite (Hother l) in Hchain, Hlast by congruence. auto.
  - apply IH; [assumption | lia].
Qed.

Lemma wake_cycle_chain cfg l st revents :
  ticks_ok st ->
  (npins cfg <= length (ticks st))%nat ->
  let r := wake_cycle cfg st revents in
  ticks_ok r.1
  /\ length (ticks r.1) = length (ticks st)
  /\ chain (bounce_time cfg) (tick st l) (accepted_times l r.2)
  /\ tick r.1 l = last_from (tick st l) (accepted_times l r.2).
Proof.
  intros Hok Hn. unfold wake_cycle.
  apply scan_lines_chain; [assumption|].
  rewrite length_take. lia.
Qed.

Lemma run_chain cfg l : forall cycles st,
  ticks_ok st ->
  (npins cfg <= length (ticks st))%nat ->
  let r := run cfg st cycles in
  ticks_ok r.1
  /\ length (ticks r.1) = length (ticks st)
  /\ chain (bounce_time cfg) (tick st l) (accepted_times l r.2)
  /\ tick r.1 l = last_from (tick st l) (accepted_times l r.2).
Proof.
  induction cycles as [|c rest IH]; intros st Hok Hn; simpl.
  - unfold last_from; simpl; auto.
  - pose proof (wake_cycle_chain cfg l st c Hok Hn) as Hw. simpl in Hw.
    destruct (wake_cycle cfg st c) as [st1 h1]. simpl in Hw.
    destruct Hw as (Hok1 & Hlen1 & Hc1 & Hl1).
    specialize (IH st1 Hok1 ltac:(lia)).
    destruct (run cfg st1 rest) as [st2 h2]. simpl in IH.
    destruct IH as (Hok2 & Hlen2 & Hc2 & Hl2).
    cbn [fst snd]. rewrite accepted_times_app, chain_app, last_from_app.
    rewrite <- Hl1. repeat split; auto; congruence.
Qed.

(** C2. In any run of the event loop, two consecutive accepted interrupts
    of the same line, at times [t1] and then [t2], satisfy
    [t2 - t1 > bounce_time]. *)
Theorem accepted_events_spaced cfg st cycles l (k : nat) t1 t2 :
  ticks_ok st ->
  (npins cfg <= length (ticks st))%nat ->
  accepted_times l (run cfg st cycles).2 !! k = Some t1 ->
  accepted_times l (run cfg st cycles).2 !! S k = Some t2 ->
  t2 - t1 > bounce_time cfg.
Proof.
  intros Hok Hn H1 H2.
  destruct (run_chain cfg l cycles st Hok Hn) as (_ & _ & Hc & _).
  eapply chain_lookup; eauto.
Qed.

(** ** What is written *)

Lemma emitted_emit cfg pin s :
  emitted (emit cfg pin s) =
    if edge_selected cfg s then [event_text cfg pin s] else [].
Proof.
  unfold emit. destruct (edge_selected cfg s), (debug cfg); reflexivity.
Qed.

Lemma samples_emit cfg pin s : samples (emit cfg pin s) = 0%nat.
Proof.
  unfold emit. destruct (edge_selected cfg s), (debug cfg); reflexivity.
Qed.

(** Whatever [handle_line] writes is what [emit] writes for the sampled
    state, and it writes only after the debounce test has passed. *)
Lemma emitted_handle_line cfg st i obs :
  emitted (handle_line cfg st i obs).2 = []
  \/ (clock_error st obs = false
      /\ debounce_passed cfg st i (total_msec st obs) = true
      /\ emitted (handle_line cfg st i obs).2 =
           emitted (emit cfg (pin_of cfg i) (get_pin_state (obs_value obs)))).
Proof.
  destruct (clock_error st obs) eqn:Hclk.
  - left. now rewrite handle_line_reset.
  - destruct (debounce_passed cfg st i (total_msec st obs)) eqn:Hd.
    + right. rewrite handle_line_accept by assumption. auto.
    + left. now rewrite handle_line_bounce.
Qed.

Lemma edge_selected_both cfg s :
  edge cfg = Z.lor EDGE_RISING EDGE_FALLING ->
  edge_selected cfg s = (s =? 0) || (s =? 1).
Proof.
  intros He. unfold edge_selected. rewrite He.
  destruct (s =? 0), (s =? 1); reflexivity.
Qed.

Lemma edge_selected_rising cfg s :
  edge cfg = EDGE_RISING -> edge_selected cfg s = (s =? 1).
Proof.
  intros He. unfold edge_selected. rewrite He.
  destruct (s =? 0), (s =? 1); reflexivity.
Qed.

Lemma edge_selected_falling cfg s :
  edge cfg = EDGE_FALLING -> edge_selected cfg s = (s =? 0).
Proof.
  intros He. unfold edge_selected. rewrite He.
  destruct (s =? 0) eqn:H0, (s =? 1) eqn:H1; try reflexivity.
Qed.

(** C4. What one handled interrupt writes, by edge policy: with both
    edges, nothing or the single line "<pin> <state>\n" with the sampled
    state 0 or 1; with rising only, nothing or the single line "<pin>\n",
    and then the sampled state is 1; with falling only, nothing or the
    single line "<pin>\n", and then the sampled state is 0. *)
Theorem emitted_line_format cfg st i obs :
  let out := emitted (handle_line cfg st i obs).2 in
  let pin := pin_of cfg i in
  let s := get_pin_state (obs_value obs) in
  (edge cfg = Z.lor EDGE_RISING EDGE_FALLING ->
     out = [] \/ ((s = 0 \/ s = 1) /\ out = [fmt_d pin +:+ " " +:+ fmt_d s +:+ nl]))
  /\ (edge cfg = EDGE_RISING ->
     out = [] \/ (s = 1 /\ out = [fmt_d pin +:+ nl]))
  /\ (edge cfg = EDGE_FALLING ->
     out = [] \/ (s = 0 /\ out = [fmt_d pin +:+ nl])).
Proof.
  intros out pin s. subst out.
  destruct (emitted_handle_line cfg st i obs) as [Hnone | (_ & _ & Hout)].
  { rewrite Hnone. repeat split; intros; now left. }
  rewrite Hout, emitted_emit. fold pin s. unfold event_text, both_edges.
  split; [| split]; intros He.
  - rewrite edge_selected_both by assumption. rewrite He. simpl.
    destruct (Z.eqb_spec s 0); [right; auto |].
    destruct (Z.eqb_spec s 1); [right; auto | now left].
  - rewrite edge_selected_rising by assumption. rewrite He. simpl.
    destruct (Z.eqb_spec s 1); [right; auto | now left].
  - rewrite edge_selected_falling by assumption. rewrite He. simpl.
    destruct (Z.eqb_spec s 0); [right; auto | now left].
Qed.

(** ** The clock guard *)

(** C3, as amended.  When a signalled line is handled and the wall clock
    reads more than one year past [start], the baseline becomes the
    current reading of the clock, nothing is written for that line and no
    entry of the debounce state changes while that line is handled. *)
Theorem forward_clock_jump_resets cfg st i obs :
  0 <= start st ->
  obs_time_cmp obs <= time_max -> obs_time_val obs <= time_max ->
  obs_time_cmp obs - start st > CLOCK_ERROR_SECONDS ->
  obs_time_val obs - start st > CLOCK_ERROR_SECONDS ->
  let r := handle_line cfg st i obs in
  start r.1 = obs_time_reset obs /\ ticks r.1 = ticks st
  /\ emitted r.2 = [] /\ accepted r.2 = false.
Proof.
  intros Hs Hc Hv Hjc Hjv r. subst r.
  assert (clock_error st obs = true) as Hclk.
  { unfold clock_error, abs_time_minus_start, time_sub.
    unfold CLOCK_ERROR_SECONDS, SEC_PER_YEAR, time_max in *.
    change (2 ^ 63) with 9223372036854775808 in *.
    rewrite (to_time_id (obs_time_cmp obs - start st))
      by (apply in_time_bounds; lia).
    rewrite (to_time_id (obs_time_val obs - start st))
      by (apply in_time_bounds; lia).
    replace (obs_time_cmp obs - start st >? 0) with true
      by (symmetry; apply Z.gtb_gt; lia).
    apply Z.gtb_gt. lia. }
  rewrite handle_line_reset by assumption. simpl. auto.
Qed.

(** ** A sample that cannot be read *)

(** C5, as amended.  When the pin is sampled and [get_pin_state] reports
    a read failure, nothing is written, the pin is sampled once only, the
    baseline and the entries of the other lines are unchanged, and the
    entry of the line itself is set to the elapsed milliseconds; the scan
    goes on with the next slot. *)
Theorem read_failure_drops_event cfg st i obs :
  (i < length (ticks st))%nat ->
  clock_error st obs = false ->
  debounce_passed cfg st i (total_msec st obs) = true ->
  get_pin_state (obs_value obs) = -1 ->
  let r := handle_line cfg st i obs in
  emitted r.2 = [] /\ samples r.2 = 1%nat
  /\ start r.1 = start st
  /\ tick r.1 i = total_msec st obs
  /\ (forall j, j <> i -> tick r.1 j = tick st j)
  /\ (forall rest,
        (scan_lines cfg i (Some obs :: rest) st).1 =
        (scan_lines cfg (S i) rest r.1).1).
Proof.
  intros Hi Hclk Hd Hfail r. subst r.
  split; [| split; [| split; [| split; [| split]]]].
  - destruct (emitted_handle_line cfg st i obs) as [H | (_ & _ & H)]; [assumption|].
    rewrite H, Hfail, emitted_emit.
    unfold edge_selected. reflexivity.
  - rewrite handle_line_accept by assumption. cbn [snd].
    unfold samples. rewrite filter_app, length_app.
    fold (samples (emit cfg (pin_of cfg i) (get_pin_state (obs_value obs)))).
    rewrite samples_emit. reflexivity.
  - rewrite handle_line_accept by assumption. reflexivity.
  - rewrite handle_line_accept by assumption. now apply tick_insert_same.
  - intros j Hj. rewrite handle_line_accept by assumption.
    apply tick_insert_other. congruence.
  - intros rest. cbn [scan_lines].
    destruct (handle_line cfg st i obs) as [st1 acts]. cbn [fst].
    destruct (scan_lines cfg (S i) rest st1). reflexivity.
Qed.

(** ** The pin state reader *)

(** C9, as amended.  [get_pin_state] yields 0 or 1 when the value file
    holds the digit 0 or 1 followed by a newline; it yields -1 whenever
    the read does not deliver exactly two bytes; when two bytes are
    delivered it yields the first byte minus '0' without looking at either
    byte; and an event is written only for a result of 0 or 1. *)
Theorem get_pin_state_cases :
  get_pin_state (Some ("0" +:+ nl)) = 0
  /\ get_pin_state (Some ("1" +:+ nl)) = 1
  /\ (forall content, (read_value content).1 <> 2 -> get_pin_state content = -1)
  /\ (forall c d, get_pin_state (Some (String c (String d EmptyString)))
                  = char_code c - char_code "0"%char)
  /\ (forall cfg pin s, s <> 0 -> s <> 1 -> emit cfg pin s = []).
Proof.
  split; [reflexivity |]. split; [reflexivity |].
  split; [| split].
  - intros content Hrc. unfold get_pin_state.
    destruct (read_value content) as [rc buff]. simpl in Hrc.
    destruct (Z.eqb_spec rc 2); [contradiction | reflexivity].
  - intros c d. reflexivity.
  - intros cfg pin s H0 H1. unfold emit, edge_selected.
    destruct (Z.eqb_spec s 0); [contradiction |].
    destruct (Z.eqb_spec s 1); [contradiction | reflexivity].
Qed.

(** ** Interrupts the edge policy rejects *)

(** C10. An interrupt that passes the clock guard and the debounce test
    but whose sampled state the edge policy rejects writes nothing and
    still sets the line's entry of [ticks] to the elapsed milliseconds;
    a later interrupt of that line no more than the bounce time after it
    is then rejected, whatever state the pin has. *)
Theorem policy_rejected_updates_tick cfg st i obs :
  ticks_ok st ->
  (i < length (ticks st))%nat ->
  clock_error st obs = false ->
  total_msec st obs - tick st i > bounce_time cfg ->
  total_msec st obs > 1000 ->
  edge_selected cfg (get_pin_state (obs_value obs)) = false ->
  let r := handle_line cfg st i obs in
  emitted r.2 = []
  /\ ticks r.1 = <[i := total_msec st obs]> (ticks st)
  /\ tick r.1 i = total_msec st obs
  /\ (forall obs',
        clock_error r.1 obs' = false ->
        total_msec r.1 obs' - total_msec st obs <= bounce_time cfg ->
        accepted (handle_line cfg r.1 i obs').2 = false
        /\ emitted (handle_line cfg r.1 i obs').2 = []).
Proof.
  intros Hok Hi Hclk Hgap Hmin Hrej r.
  pose proof (total_msec_range st obs) as Hr.
  assert (debounce_passed cfg st i (total_msec st obs) = true) as Hd.
  { apply debounce_passed_iff; auto. }
  assert (r = ({| start := start st;
                  ticks := <[i := total_msec st obs]> (ticks st) |},
               [ARead i; AUsleep 2000; AGetPinState (pin_of cfg i)]
                 ++ emit cfg (pin_of cfg i) (get_pin_state (obs_value obs))))
    as Hr_eq by (subst r; now apply handle_line_accept).
  rewrite Hr_eq. cbn [fst snd].
  assert (tick {| start := start st;
                  ticks := <[i := total_msec st obs]> (ticks st) |} i
          = total_msec st obs) as Htick by now apply tick_insert_same.
  split; [| split; [| split]].
  - change (emitted (emit cfg (pin_of cfg i) (get_pin_state (obs_value obs))) = []).
    now rewrite emitted_emit, Hrej.
  - reflexivity.
  - assumption.
  - intros obs' Hclk' Hclose.
    set (st1 := {| start := start st;
                   ticks := <[i := total_msec st obs]> (ticks st) |}) in *.
    assert (ticks_ok st1) as Hok1.
    { apply ticks_ok_insert; [assumption |]. unfold in_int in Hr. lia. }
    assert (debounce_passed cfg st1 i (total_msec st1 obs') = false) as Hd'.
    { destruct (debounce_passed cfg st1 i (total_msec st1 obs')) eqn:E; [| reflexivity].
      apply (debounce_passed_iff cfg st1 i _ Hok1 (total_msec_range st1 obs')) in E.
      rewrite Htick in E. lia. }
    rewrite handle_line_bounce by assumption. auto.
Qed.

(** ** Start-up and termination *)

Lemma bind_run {A B} (m : proc A) (k : A -> proc B) log :
  (m ≫= k) log =
    match m log with
    | (log1, Returns a) => k a log1
    | (log1, Exits c) => (log1, Exits c)
    end.
Proof. reflexivity. Qed.

Lemma aborts_exit {A} : aborts (exit (-1) : proc A).
Proof.
  intros log. exists []. rewrite app_nil_r. split; [reflexivity | constructor].
Qed.

Lemma aborts_harmless {A} (m : proc A) : aborts m -> harmless m.
Proof.
  intros H log. destruct (H log) as (l & Hl & Hq). exists l. auto.
Qed.

Lemma harmless_ret {A} (a : A) : harmless (mret a : proc A).
Proof.
  intros log. exists []. rewrite app_nil_r.
  split; [constructor | right; exists a; reflexivity].
Qed.

Lemma harmless_call c : is_acquisition c = false -> harmless (call c).
Proof.
  intros Hc log. exists [c].
  split; [repeat constructor; assumption | right; exists tt; reflexivity].
Qed.

Lemma aborts_bind_l {A B} (m : proc A) (k : A -> proc B) :
  aborts m -> aborts (m ≫= k).
Proof.
  intros H log. destruct (H log) as (l & Hl & Hq).
  exists l. rewrite bind_run, Hl. auto.
Qed.

Lemma aborts_bind_r {A B} (m : proc A) (k : A -> proc B) :
  harmless m -> (forall a, aborts (k a)) -> aborts (m ≫= k).
Proof.
  intros Hm Hk log. destruct (Hm log) as (l & Hq & [Hl | [a Hl]]).
  - exists l. rewrite bind_run, Hl. auto.
  - destruct (Hk a (log ++ l)) as (l' & Hl' & Hq').
    exists (l ++ l'). rewrite bind_run, Hl, Hl', app_assoc.
    split; [reflexivity | now apply Forall_app].
Qed.

Lemma harmless_bind {A B} (m : proc A) (k : A -> proc B) :
  harmless m -> (forall a, harmless (k a)) -> harmless (m ≫= k).
Proof.
  intros Hm Hk log. destruct (Hm log) as (l & Hq & [Hl | [a Hl]]).
  - exists l. rewrite bind_run, Hl. auto.
  - destruct (Hk a (log ++ l)) as (l' & Hq' & Hl').
    exists (l ++ l'). rewrite bind_run, Hl, (app_assoc log l l').
    split; [now apply Forall_app | assumption].
Qed.

Lemma harmless_for_each {A} (body : A -> proc unit) l :
  (forall x, harmless (body x)) -> harmless (for_each body l).
Proof.
  intros Hb. induction l as [|x l IH]; simpl.
  - apply harmless_ret.
  - apply harmless_bind; auto.
Qed.

Section LifecycleFacts.

Variable E : env.
Variable argv0 : string.
Variable VERSION : string.

Lemma aborts_show_short_usage {A} :
  aborts (show_short_usage argv0 ;; (exit (-1) : proc A)).
Proof.
  apply aborts_bind_r; [now apply harmless_call | intros; apply aborts_exit].
Qed.

Lemma harmless_set_option s c : harmless (set_option argv0 VERSION s c).
Proof.
  destruct c; simpl; try apply harmless_ret; apply aborts_harmless.
  - apply aborts_bind_r; [| intros; apply aborts_exit].
    unfold show_long_usage. apply harmless_for_each.
    intros x. now apply harmless_call.
  - apply aborts_bind_r; [| intros; apply aborts_exit].
    unfold show_version.
    repeat (apply harmless_bind; [now apply harmless_call | intros _]).
    now apply harmless_call.
  - apply aborts_show_short_usage.
Qed.

Lemma harmless_option_loop opts : forall s,
  harmless (option_loop argv0 VERSION s opts).
Proof.
  induction opts as [|c opts IH]; intros s; simpl.
  - apply harmless_ret.
  - apply harmless_bind; [apply harmless_set_option | auto].
Qed.

(** C8. When no pin is given, or more than [MAX_PINS] of them, [main]
    exits with a non-zero status and has made no write to the GPIO
    control files and opened nothing: all it did was print. *)
Theorem bad_pin_count_exits opts args now log :
  (length args < 1 \/ MAX_PINS < length args)%nat ->
  exists l c,
    main E argv0 VERSION opts args now log = (log ++ l, Exits c)
    /\ exit_status c <> 0
    /\ Forall (fun s => is_acquisition s = false) l.
Proof.
  intros Hbad.
  assert (aborts (main E argv0 VERSION opts args now)) as Hab.
  { unfold main. apply aborts_bind_r; [apply harmless_option_loop |].
    intros s.
    destruct (length args <? 1)%nat eqn:Hfew.
    - apply aborts_bind_l, aborts_show_short_usage.
    - apply aborts_bind_r; [apply harmless_ret | intros _].
      apply aborts_bind_l.
      assert ((MAX_PINS <? length args)%nat = true) as ->.
      { apply Nat.ltb_lt. apply Nat.ltb_ge in Hfew. lia. }
      apply aborts_bind_r; [now apply harmless_call | intros; apply aborts_exit]. }
  destruct (Hab log) as (l & Hl & Hq).
  exists l, (-1). split; [assumption |]. split; [| assumption].
  unfold exit_status. simpl. discriminate.
Qed.

(** With the [unexport] file writable, [unexport_pins] writes every pin
    to it, in order, and returns. *)
Lemma unexport_pins_run ps : forall log,
  (forall l, fopen_ok E l "/sys/class/gpio/unexport" = true) ->
  unexport_pins E ps log =
    (log ++ map (fun pin => SysWrite "/sys/class/gpio/unexport" (fmt_d pin)) ps,
     Returns tt).
Proof.
  induction ps as [|pin ps IH]; intros log Hok; simpl.
  - now rewrite app_nil_r.
  - unfold unexport_pins in *. simpl. rewrite bind_run.
    unfold write_to_file at 1. rewrite Hok. unfold call at 1.
    rewrite IH by assumption. now rewrite <- app_assoc.
Qed.

Lemma releases_app l1 l2 : releases (l1 ++ l2) = releases l1 ++ releases l2.
Proof. unfold releases. apply omap_app. Qed.

Lemma releases_cons c l :
  releases (c :: l) =
    match released c with
    | Some t => t :: releases l
    | None => releases l
    end.
Proof. reflexivity. Qed.

Lemma releases_unexport_writes ps :
  releases (map (fun pin => SysWrite "/sys/class/gpio/unexport" (fmt_d pin)) ps)
  = map fmt_d ps.
Proof.
  induction ps as [|pin ps IH]; [reflexivity |].
  cbn [map]. rewrite releases_cons, IH. reflexivity.
Qed.

(** C6, as amended.  When one of the five termination signals arrives
    and the [unexport] file can be opened for writing, the handler
    writes every configured pin to it once per entry of the pin list, in
    order, and nothing when export was disabled, and the process exits
    with status 0. *)
Theorem quit_signal_releases cfg sig log :
  (forall l, fopen_ok E l "/sys/class/gpio/unexport" = true) ->
  let r := deliver E cfg sig log in
  r.2 = Exits 0
  /\ exit_status 0 = 0
  /\ r.1 = log ++ (if no_export cfg then []
                   else map (fun pin => SysWrite "/sys/class/gpio/unexport" (fmt_d pin))
                            (pins cfg))
  /\ releases r.1 = releases log ++ (if no_export cfg then [] else map fmt_d (pins cfg)).
Proof.
  intros Hok r.
  assert (r = (log ++ (if no_export cfg then []
                       else map (fun pin => SysWrite "/sys/class/gpio/unexport" (fmt_d pin))
                                (pins cfg)), Exits 0)) as ->.
  { subst r. destruct sig; unfold deliver, quit_signal; rewrite bind_run;
      (destruct (no_export cfg);
       [ now rewrite app_nil_r | now rewrite unexport_pins_run ]). }
  cbn [fst snd]. repeat split.
  rewrite releases_app. destruct (no_export cfg); [reflexivity |].
  now rewrite releases_unexport_writes.
Qed.

End LifecycleFacts.

(** ** Worked cases *)

(** The example of the specification: on pin 17 a rising edge at 1200 ms,
    a falling edge at 1250 ms and a falling edge at 1600 ms. *)
Example spec_example_run :
  let r := run example_cfg (initial_state 100)
             [ [Some (observe 101 200000 (Some ("1" +:+ nl))); None];
               [Some (observe 101 250000 (Some ("0" +:+ nl)))];
               [Some (observe 101 600000 (Some ("0" +:+ nl)))] ] in
  emitted (all_actions r.2) = ["17 1" +:+ nl; "17 0" +:+ nl]
  /\ accepted_times 0 r.2 = [1200; 1600].
Proof. split; reflexivity. Qed.

(** C3, counterexample.  Two lines signal in one wake-up while the clock
    has jumped two years ahead.  The jump is detected while line 0 is
    handled; line 1 is handled in the same wake-up against the new
    baseline, 1001 ms after it: its event is written and its entry of
    [ticks] changes. *)
Lemma clock_jump_cycle_counterexample :
  let st := initial_state 1000000000 in
  let jumped := observe 1100000000 999600 (Some ("1" +:+ nl)) in
  let next := observe 1100000001 1000 (Some ("1" +:+ nl)) in
  let r := wake_cycle example_cfg st [Some jumped; Some next] in
  Z.abs (obs_time_val jumped - start st) > SEC_PER_YEAR
  /\ start r.1 = 1100000000
  /\ emitted (all_actions r.2) = ["27 1" +:+ nl]
  /\ tick st 1 = 0 /\ tick r.1 1 = 1001.
Proof. repeat split. Qed.

(** The guard is blind to a clock that reads earlier than [start]: the
    expansion of [abs] negates the reading alone, so the compared value
    is [-(now + start)], which is never positive. *)
Theorem backward_clock_never_detected cfg st i obs :
  0 <= start st ->
  0 <= obs_time_cmp obs <= start st ->
  0 <= obs_time_val obs ->
  obs_time_val obs + start st <= time_max ->
  clock_error st obs = false
  /\ start (handle_line cfg st i obs).1 = start st.
Proof.
  intros Hs Hc Hv Hsum.
  assert (clock_error st obs = false) as Hclk.
  { unfold time_max in Hsum. change (2 ^ 63) with 9223372036854775808 in Hsum.
    unfold clock_error, abs_time_minus_start, time_sub, time_neg.
    rewrite (to_time_id (obs_time_cmp obs - start st))
      by (apply in_time_bounds; lia).
    rewrite (gtb_false (obs_time_cmp obs - start st) 0) by lia.
    rewrite (to_time_id (- obs_time_val obs)) by (apply in_time_bounds; lia).
    rewrite to_time_id by (apply in_time_bounds; lia).
    unfold CLOCK_ERROR_SECONDS, SEC_PER_YEAR.
    apply gtb_false. lia. }
  split; [assumption |].
  unfold handle_line. rewrite Hclk.
  destruct (debounce_passed cfg st i (total_msec st obs)); reflexivity.
Qed.

(** A clock that reads 1971 after a start in 1973: the difference exceeds
    one year, the baseline stays. *)
Lemma backward_clock_never_detected_witness :
  let st := initial_state 100000000 in
  let obs := observe 50000000 0 (Some ("1" +:+ nl)) in
  (Z.abs (obs_time_val obs - start st) > SEC_PER_YEAR
   /\ 0 <= start st
   /\ 0 <= obs_time_cmp obs <= start st
   /\ 0 <= obs_time_val obs
   /\ obs_time_val obs + start st <= time_max)
  /\ clock_error st obs = false
  /\ start (handle_line example_cfg st 0 obs).1 = start st.
Proof.
  intros st obs.
  assert (H0 : Z.abs (obs_time_val obs - start st) > SEC_PER_YEAR)
    by (vm_compute; reflexivity).
  assert (H1 : 0 <= start st) by (vm_compute; discriminate).
  assert (H2 : 0 <= obs_time_cmp obs <= start st)
    by (split; vm_compute; discriminate).
  assert (H3 : 0 <= obs_time_val obs) by (vm_compute; discriminate).
  assert (H4 : obs_time_val obs + start st <= time_max) by (vm_compute; discriminate).
  exact (conj (conj H0 (conj H1 (conj H2 (conj H3 H4))))
           (backward_clock_never_detected example_cfg st 0%nat obs H1 H2 H3 H4)).
Defined.

(** C5, counterexample.  The value file cannot be read two seconds after
    start: nothing is written, yet the line's entry of [ticks] moves from
    0 to 2000. *)
Lemma read_failure_counterexample :
  let st := initial_state 1000 in
  let obs := observe 1002 0 None in
  let r := handle_line example_cfg st 0 obs in
  get_pin_state (obs_value obs) = -1
  /\ accepted r.2 = true
  /\ emitted r.2 = []
  /\ tick st 0 = 0 /\ tick r.1 0 = 2000.
Proof. repeat split. Qed.

(** C9, counterexample.  Two bytes that are not a digit and a newline:
    the reader reports state 1 and the event is written. *)
Lemma get_pin_state_counterexample :
  expected_format "1x" = false
  /\ get_pin_state (Some "1x"%string) = 1
  /\ emitted (handle_line example_cfg (initial_state 1000) 0
                (observe 1002 0 (Some "1x"%string))).2 = ["17 1" +:+ nl].
Proof. repeat split. Qed.

(** C6, counterexample.  Start-up succeeds for pins 17 and 27; when
    SIGTERM arrives the [unexport] file cannot be opened: the handler
    exits with status 255 and neither pin has been released. *)
Lemma quit_signal_counterexample :
  let started := main unexport_unwritable "pi-button-pipe" "1.0" [] [17; 27] 1000 [] in
  let r := deliver unexport_unwritable example_cfg SIGTERM started.1 in
  started.2 = Returns (example_cfg, initial_state 1000)
  /\ r.2 = Exits (-1)
  /\ exit_status (-1) = 255
  /\ releases r.1 = [].
Proof. repeat split. Qed.

(** C7, the code at the failing input.  Pin 17 is exported, its direction
    and edge are set, and then its [value] file cannot be opened: [main]
    exits with status 255 and pin 17 has not been written to [unexport]. *)
Lemma open_failure_leaves_pin_exported :
  let r := main value_unreadable "pi-button-pipe" "1.0" [] [17] 1000 [] in
  r = ([ SysWrite "/sys/class/gpio/export" "17";
         SysWrite "/sys/class/gpio/gpio17/direction" "in";
         SysWrite "/sys/class/gpio/gpio17/edge" "both";
         SysOpenFailed "/sys/class/gpio/gpio17/value";
         SysStderr ("Can't open GPIO device /sys/class/gpio/gpio17/value" +:+ nl) ],
       Exits (-1))
  /\ exit_status (-1) = 255
  /\ releases r.1 = [].
Proof. repeat split. Qed.

(** ** No exit of [main] releases a pin *)

Lemma keeps_ret {A} (a : A) : keeps_releases (mret a : proc A).
Proof. intros log. reflexivity. Qed.

Lemma keeps_exit {A} c : keeps_releases (exit c : proc A).
Proof. intros log. reflexivity. Qed.

Lemma keeps_call c : released c = None -> keeps_releases (call c).
Proof.
  intros Hc log. unfold call; cbn [fst].
  unfold releases. rewrite omap_app. simpl. rewrite Hc. apply app_nil_r.
Qed.

Lemma keeps_bind {A B} (m : proc A) (k : A -> proc B) :
  keeps_releases m -> (forall a, keeps_releases (k a)) -> keeps_releases (m ≫= k).
Proof.
  intros Hm Hk log. rewrite bind_run. specialize (Hm log).
  destruct (m log) as [log1 [a | c]]; cbn [fst] in *.
  - now rewrite Hk.
  - assumption.
Qed.

Lemma keeps_for_each {A} (body : A -> proc unit) l :
  (forall x, keeps_releases (body x)) -> keeps_releases (for_each body l).
Proof.
  intros Hb. induction l as [|x l IH]; simpl.
  - apply keeps_ret.
  - apply keeps_bind; auto.
Qed.

Lemma keeps_write_to_file E file text :
  String.eqb file "/sys/class/gpio/unexport" = false ->
  keeps_releases (write_to_file E file text).
Proof.
  intros Hf log. unfold write_to_file.
  destruct (fopen_ok E log file).
  - apply keeps_call. simpl. now rewrite Hf.
  - apply keeps_bind; [now apply keeps_call | intros _].
    apply keeps_bind; [now apply keeps_call | intros _; apply keeps_exit].
Qed.

Lemma keeps_export_pins E ps : keeps_releases (export_pins E ps).
Proof.
  apply keeps_for_each. intros pin.
  apply keeps_bind; [now apply keeps_write_to_file | intros _].
  apply keeps_bind; [now apply keeps_write_to_file | intros _].
  now apply keeps_write_to_file.
Qed.

Lemma keeps_set_option argv0 V s c : keeps_releases (set_option argv0 V s c).
Proof.
  destruct c; simpl; try apply keeps_ret.
  - apply keeps_bind; [| intros; apply keeps_exit].
    apply keeps_for_each. intros x. now apply keeps_call.
  - apply keeps_bind; [| intros; apply keeps_exit].
    unfold show_version.
    repeat (apply keeps_bind; [now apply keeps_call | intros _]).
    now apply keeps_call.
  - apply keeps_bind; [now apply keeps_call | intros; apply keeps_exit].
Qed.

Lemma keeps_option_loop argv0 V opts : forall s,
  keeps_releases (option_loop argv0 V s opts).
Proof.
  induction opts as [|c opts IH]; intros s; simpl.
  - apply keeps_ret.
  - apply keeps_bind; [apply keeps_set_option | auto].
Qed.

(** Only [-u] sets [unexport_only]. *)
Lemma option_loop_unexport_only argv0 V opts : forall s log log' s',
  ~ In OptU opts ->
  s_unexport_only s = false ->
  option_loop argv0 V s opts log = (log', Returns s') ->
  s_unexport_only s' = false.
Proof.
  induction opts as [|c opts IH]; intros s log log' s' Hu Hs Hrun; simpl in Hrun.
  - inversion Hrun; subst. assumption.
  - rewrite bind_run in Hrun.
    destruct (set_option argv0 V s c log) as [log1 [s1 | code]] eqn:Hset;
      [| discriminate].
    apply (IH s1 log1 log' s'); [intros Hin; apply Hu; now right | | assumption].
    destruct c; cbn [set_option] in Hset;
      try (inversion Hset; subst; assumption).
    exfalso. apply Hu. now left.
Qed.

(** Unless [-u] is given, [main] writes nothing to the [unexport] file,
    whichever way it ends: none of its error exits releases the pins it
    exported. *)
Theorem main_never_releases E argv0 V opts args now log :
  ~ In OptU opts ->
  releases (main E argv0 V opts args now log).1 = releases log.
Proof.
  intros Hu. unfold main. rewrite bind_run.
  pose proof (keeps_option_loop argv0 V opts default_settings log) as Hopt.
  destruct (option_loop argv0 V default_settings opts log) as [log1 [s | c]] eqn:Hrun;
    cbn [fst] in Hopt; [| assumption].
  rewrite <- Hopt.
  assert (s_unexport_only s = false) as Hs
    by exact (option_loop_unexport_only argv0 V opts default_settings log log1 s
                Hu eq_refl Hrun).
  rewrite Hs.
  revert log1 Hopt Hrun. intros log1 _ _.
  generalize log1. change (keeps_releases
    ((if (length args <? 1)%nat then show_short_usage argv0 ;; exit (-1) else mret ()) ;;
     (if (MAX_PINS <? length args)%nat
      then call (SysStderr (argv0 +:+ ": too many pins specified" +:+ nl)) ;; exit (-1)
      else mret ()) ;;
     mret () ;;
     (if s_export_only s then export_pins E args ;; exit 0 else mret ()) ;;
     (if s_no_export s then mret () else export_pins E args) ;;
     for_each (open_value E) args ;;
     install_handlers ;;
     open_pipe E (s_debug s) ;;
     mret ({| pins := args; no_export := s_no_export s; edge := s_edge s;
              bounce_time := s_bounce_time s; debug := s_debug s |},
           initial_state now))).
  apply keeps_bind; [| intros _].
  { destruct (length args <? 1)%nat; [| apply keeps_ret].
    apply keeps_bind; [now apply keeps_call | intros; apply keeps_exit]. }
  apply keeps_bind; [| intros _].
  { destruct (MAX_PINS <? length args)%nat; [| apply keeps_ret].
    apply keeps_bind; [now apply keeps_call | intros; apply keeps_exit]. }
  apply keeps_bind; [apply keeps_ret | intros _].
  apply keeps_bind; [| intros _].
  { destruct (s_export_only s); [| apply keeps_ret].
    apply keeps_bind; [apply keeps_export_pins | intros; apply keeps_exit]. }
  apply keeps_bind; [| intros _].
  { destruct (s_no_export s); [apply keeps_ret | apply keeps_export_pins]. }
  apply keeps_bind; [| intros _].
  { apply keeps_for_each. intros pin log'. unfold open_value.
    destruct (open_ok E log' (gpio_file pin "value")).
    - now apply keeps_call.
    - apply keeps_bind; [now apply keeps_call | intros _].
      apply keeps_bind; [now apply keeps_call | intros _; apply keeps_exit]. }
  apply keeps_bind; [| intros _].
  { apply keeps_for_each. intros x. now apply keeps_call. }
  apply keeps_bind; [| intros _; apply keeps_ret].
  unfold open_pipe. destruct (s_debug s); [apply keeps_ret |].
  apply keeps_bind; [now apply keeps_call | intros _].
  intros log'. unfold fopen_pipe.
  destruct (fopen_ok E log' DEFAULT_PIPE_FILENAME).
  - now apply keeps_call.
  - apply keeps_bind; [now apply keeps_call | intros _].
    apply keeps_bind; [now apply keeps_call | intros _; apply keeps_exit].
Qed.

(** ** The state in which the event loop starts *)

Lemma bind_returns {A B} (m : proc A) (k : A -> proc B) log log' b :
  (m ≫= k) log = (log', Returns b) ->
  exists a log1, m log = (log1, Returns a) /\ k a log1 = (log', Returns b).
Proof.
  rewrite bind_run. destruct (m log) as [log1 [a | c]]; [eauto | discriminate].
Qed.

Lemma aborts_not_returns {A} (m : proc A) log log' a :
  aborts m -> m log <> (log', Returns a).
Proof.
  intros Hab H. destruct (Hab log) as (l & Hl & _). congruence.
Qed.

(** [-r] and [-f] are the only assignments to [edge]. *)
Lemma option_loop_edge argv0 V opts : forall s log log' s',
  (s_edge s = Z.lor EDGE_RISING EDGE_FALLING
   \/ s_edge s = EDGE_RISING \/ s_edge s = EDGE_FALLING) ->
  option_loop argv0 V s opts log = (log', Returns s') ->
  s_edge s' = Z.lor EDGE_RISING EDGE_FALLING
  \/ s_edge s' = EDGE_RISING \/ s_edge s' = EDGE_FALLING.
Proof.
  induction opts as [|c opts IH]; intros s log log' s' Hs Hrun; simpl in Hrun.
  - inversion Hrun; subst. assumption.
  - apply bind_returns in Hrun as (s1 & log1 & Hset & Hrun).
    apply (IH s1 log1 log' s'); [| assumption].
    destruct c; cbn [set_option] in Hset;
      try (inversion Hset; subst; cbn [s_edge]; tauto).
Qed.

(** When [main] reaches the event loop there are between one and
    [MAX_PINS] pins, the edge policy is one of the three the options can
    select, and the debounce state is the zeroed array. *)
Theorem main_enters_loop E argv0 V opts args now log log' cfg st :
  main E argv0 V opts args now log = (log', Returns (cfg, st)) ->
  pins cfg = args
  /\ (1 <= npins cfg <= MAX_PINS)%nat
  /\ (edge cfg = Z.lor EDGE_RISING EDGE_FALLING
      \/ edge cfg = EDGE_RISING \/ edge cfg = EDGE_FALLING)
  /\ st = initial_state now
  /\ ticks_ok st /\ length (ticks st) = MAX_PINS.
Proof.
  unfold main. intros H.
  apply bind_returns in H as (s & l1 & Hopt & H).
  apply bind_returns in H as ([] & l2 & Hfew & H).
  apply bind_returns in H as ([] & l3 & Hmany & H).
  do 6 (apply bind_returns in H as ([] & ? & _ & H)).
  inversion H; subst; clear H. cbn [pins edge npins].
  split; [reflexivity |]. split; [| split; [| split; [reflexivity | split]]].
  - destruct (length args <? 1)%nat eqn:E1.
    { exfalso. revert Hfew. apply aborts_not_returns, aborts_show_short_usage. }
    destruct (MAX_PINS <? length args)%nat eqn:E2.
    { exfalso. revert Hmany. apply aborts_not_returns.
      apply aborts_bind_r; [now apply harmless_call | intros; apply aborts_exit]. }
    apply Nat.ltb_ge in E1. apply Nat.ltb_ge in E2. unfold npins; simpl. lia.
  - eapply option_loop_edge; [| exact Hopt]. left; reflexivity.
  - apply initial_state_ok.
  - apply initial_state_length.
Qed.

(** ** The theorems at concrete inputs *)

(** [debounce_accepts_iff] at pin 17, 1200 ms after start. *)
Lemma debounce_accepts_iff_witness :
  let st := initial_state 1000 in
  let obs := observe 1001 200000 (Some ("1" +:+ nl)) in
  let tm := total_msec st obs in
  let r := handle_line example_cfg st 0 obs in
  (ticks_ok st /\ (0 < length (ticks st))%nat /\ clock_error st obs = false)
  /\ tm = 1200
  /\ (accepted r.2 = true <-> tm - tick st 0 > bounce_time example_cfg /\ tm > 1000)
  /\ (accepted r.2 = true ->
      r.1 = {| start := start st; ticks := <[0%nat := tm]> (ticks st) |}
      /\ tick r.1 0 = tm)
  /\ (accepted r.2 = false -> r.1 = st /\ emitted r.2 = [])
  /\ (tm <= 1000 -> accepted r.2 = false /\ r.1 = st /\ emitted r.2 = []).
Proof.
  intros st obs tm r.
  assert (H1 : ticks_ok st) by apply initial_state_ok.
  assert (H2 : (0 < length (ticks st))%nat) by (vm_compute; lia).
  assert (H3 : clock_error st obs = false) by reflexivity.
  exact (conj (conj H1 (conj H2 H3))
           (conj eq_refl (debounce_accepts_iff example_cfg st 0%nat obs H1 H2 H3))).
Defined.

(** C2 on the run of the specification's example. *)
Lemma accepted_events_spaced_witness :
  let st := initial_state 100 in
  let cycles :=
    [ [Some (observe 101 200000 (Some ("1" +:+ nl))); None];
      [Some (observe 101 250000 (Some ("0" +:+ nl)))];
      [Some (observe 101 600000 (Some ("0" +:+ nl)))] ] in
  (ticks_ok st /\ (npins example_cfg <= length (ticks st))%nat
   /\ accepted_times 0 (run example_cfg st cycles).2 !! 0%nat = Some 1200
   /\ accepted_times 0 (run example_cfg st cycles).2 !! 1%nat = Some 1600)
  /\ 1600 - 1200 > bounce_time example_cfg.
Proof.
  intros st cycles.
  assert (H1 : ticks_ok st) by apply initial_state_ok.
  assert (H2 : (npins example_cfg <= length (ticks st))%nat) by (vm_compute; lia).
  assert (H3 : accepted_times 0 (run example_cfg st cycles).2 !! 0%nat = Some 1200)
    by reflexivity.
  assert (H4 : accepted_times 0 (run example_cfg st cycles).2 !! 1%nat = Some 1600)
    by reflexivity.
  exact (conj (conj H1 (conj H2 (conj H3 H4)))
           (accepted_events_spaced example_cfg st cycles 0%nat 0%nat 1200 1600
              H1 H2 H3 H4)).
Defined.

(** C3, as amended, at a clock that jumped from 2001 to 2004. *)
Lemma forward_clock_jump_resets_witness :
  let st := initial_state 1000000000 in
  let obs := observe 1100000000 999600 (Some ("1" +:+ nl)) in
  let r := handle_line example_cfg st 0 obs in
  (0 <= start st
   /\ obs_time_cmp obs <= time_max /\ obs_time_val obs <= time_max
   /\ obs_time_cmp obs - start st > CLOCK_ERROR_SECONDS
   /\ obs_time_val obs - start st > CLOCK_ERROR_SECONDS)
  /\ start r.1 = 1100000000 /\ ticks r.1 = ticks st
  /\ emitted r.2 = [] /\ accepted r.2 = false.
Proof.
  intros st obs r.
  assert (H1 : 0 <= start st) by (vm_compute; discriminate).
  assert (H2 : obs_time_cmp obs <= time_max) by (vm_compute; discriminate).
  assert (H3 : obs_time_val obs <= time_max) by (vm_compute; discriminate).
  assert (H4 : obs_time_cmp obs - start st > CLOCK_ERROR_SECONDS)
    by (vm_compute; reflexivity).
  assert (H5 : obs_time_val obs - start st > CLOCK_ERROR_SECONDS)
    by (vm_compute; reflexivity).
  exact (conj (conj H1 (conj H2 (conj H3 (conj H4 H5))))
           (forward_clock_jump_resets example_cfg st 0%nat obs H1 H2 H3 H4 H5)).
Defined.

(** C4 at a rising edge of pin 17 with both edges reported. *)
Lemma emitted_line_format_witness :
  let st := initial_state 1000 in
  let obs := observe 1002 0 (Some ("1" +:+ nl)) in
  let out := emitted (handle_line example_cfg st 0 obs).2 in
  out = ["17 1" +:+ nl]
  /\ (out = []
      \/ ((get_pin_state (obs_value obs) = 0 \/ get_pin_state (obs_value obs) = 1)
          /\ out = [fmt_d (pin_of example_cfg 0) +:+ " "
                    +:+ fmt_d (get_pin_state (obs_value obs)) +:+ nl])).
Proof.
  intros st obs out.
  exact (conj eq_refl (proj1 (emitted_line_format example_cfg st 0%nat obs) eq_refl)).
Defined.

(** C5, as amended, at a value file that cannot be read. *)
Lemma read_failure_drops_event_witness :
  let st := initial_state 1000 in
  let obs := observe 1002 0 None in
  let r := handle_line example_cfg st 0 obs in
  ((0 < length (ticks st))%nat /\ clock_error st obs = false
   /\ debounce_passed example_cfg st 0 (total_msec st obs) = true
   /\ get_pin_state (obs_value obs) = -1)
  /\ emitted r.2 = [] /\ samples r.2 = 1%nat
  /\ start r.1 = start st
  /\ tick r.1 0 = total_msec st obs
  /\ (forall j, j <> 0%nat -> tick r.1 j = tick st j)
  /\ (forall rest,
        (scan_lines example_cfg 0 (Some obs :: rest) st).1 =
        (scan_lines example_cfg 1 rest r.1).1).
Proof.
  intros st obs r.
  assert (H1 : (0 < length (ticks st))%nat) by (vm_compute; lia).
  exact (conj (conj H1 (conj eq_refl (conj eq_refl eq_refl)))
           (read_failure_drops_event example_cfg st 0%nat obs
              H1 eq_refl eq_refl eq_refl)).
Defined.

(** C6, as amended, at SIGINT with pins 17 and 27 exported. *)
Lemma quit_signal_releases_witness :
  let r := deliver all_ok example_cfg SIGINT [] in
  (forall l, fopen_ok all_ok l "/sys/class/gpio/unexport" = true)
  /\ r.2 = Exits 0
  /\ exit_status 0 = 0
  /\ r.1 = [] ++ (if no_export example_cfg then []
                  else map (fun pin => SysWrite "/sys/class/gpio/unexport" (fmt_d pin))
                           (pins example_cfg))
  /\ releases r.1 = releases [] ++ (if no_export example_cfg then []
                                    else map fmt_d (pins example_cfg)).
Proof.
  intros r.
  exact (conj (fun _ => eq_refl)
           (quit_signal_releases all_ok example_cfg SIGINT [] (fun _ => eq_refl))).
Defined.

(** C8 at an empty pin list. *)
Lemma bad_pin_count_exits_witness :
  (length ([] : list Z) < 1 \/ MAX_PINS < length ([] : list Z))%nat
  /\ exists l c,
       main all_ok "pi-button-pipe" "1.0" [] [] 1000 [] = ([] ++ l, Exits c)
       /\ exit_status c <> 0
       /\ Forall (fun s => is_acquisition s = false) l.
Proof.
  assert (H : (length ([] : list Z) < 1 \/ MAX_PINS < length ([] : list Z))%nat)
    by (left; simpl; lia).
  exact (conj H (bad_pin_count_exits all_ok "pi-button-pipe" "1.0" [] [] 1000 [] H)).
Defined.

(** C10 at a falling edge seen while only rising edges are reported. *)
Lemma policy_rejected_updates_tick_witness :
  let st := initial_state 1000 in
  let obs := observe 1002 0 (Some ("0" +:+ nl)) in
  let r := handle_line rising_cfg st 0 obs in
  (ticks_ok st /\ (0 < length (ticks st))%nat /\ clock_error st obs = false
   /\ total_msec st obs - tick st 0 > bounce_time rising_cfg
   /\ total_msec st obs > 1000
   /\ edge_selected rising_cfg (get_pin_state (obs_value obs)) = false)
  /\ emitted r.2 = []
  /\ ticks r.1 = <[0%nat := total_msec st obs]> (ticks st)
  /\ tick r.1 0 = total_msec st obs
  /\ (forall obs',
        clock_error r.1 obs' = false ->
        total_msec r.1 obs' - total_msec st obs <= bounce_time rising_cfg ->
        accepted (handle_line rising_cfg r.1 0 obs').2 = false
        /\ emitted (handle_line rising_cfg r.1 0 obs').2 = []).
Proof.
  intros st obs r.
  assert (H1 : ticks_ok st) by apply initial_state_ok.
  assert (H2 : (0 < length (ticks st))%nat) by (vm_compute; lia).
  assert (H4 : total_msec st obs - tick st 0 > bounce_time rising_cfg)
    by (vm_compute; reflexivity).
  assert (H5 : total_msec st obs > 1000) by (vm_compute; reflexivity).
  exact (conj (conj H1 (conj H2 (conj eq_refl (conj H4 (conj H5 eq_refl)))))
           (policy_rejected_updates_tick rising_cfg st 0%nat obs
              H1 H2 eq_refl H4 H5 eq_refl)).
Defined.

(** [main_never_releases] at the failing start-up of pin 17. *)
Lemma main_never_releases_witness :
  ~ In OptU []
  /\ releases (main value_unreadable "pi-button-pipe" "1.0" [] [17] 1000 []).1
     = releases [].
Proof.
  assert (H : ~ In OptU []) by (intros []).
  exact (conj H (main_never_releases value_unreadable "pi-button-pipe" "1.0"
                   [] [17] 1000 [] H)).
Defined.

(** [main_enters_loop] at a successful start-up with pins 17 and 27. *)
Lemma main_enters_loop_witness :
  let started := main all_ok "pi-button-pipe" "1.0" [] [17; 27] 1000 [] in
  started = (started.1, Returns (example_cfg, initial_state 1000))
  /\ pins example_cfg = [17; 27]
  /\ (1 <= npins example_cfg <= MAX_PINS)%nat
  /\ (edge example_cfg = Z.lor EDGE_RISING EDGE_FALLING
      \/ edge example_cfg = EDGE_RISING \/ edge example_cfg = EDGE_FALLING)
  /\ initial_state 1000 = initial_state 1000
  /\ ticks_ok (initial_state 1000) /\ length (ticks (initial_state 1000)) = MAX_PINS.
Proof.
  intros started.
  assert (H : started = (started.1, Returns (example_cfg, initial_state 1000)))
    by reflexivity.
  exact (conj H (main_enters_loop all_ok "pi-button-pipe" "1.0" [] [17; 27] 1000 []
                   started.1 example_cfg (initial_state 1000) H)).
Defined.

(** [total_msec_exact] 1200 ms after start. *)
Lemma total_msec_exact_witness :
  let st := initial_state 1000 in
  let obs := observe 1001 200000 (Some ("1" +:+ nl)) in
  (in_time (obs_tv_sec obs - start st)
   /\ 0 <= obs_tv_usec obs < 1000000
   /\ in_int ((obs_tv_sec obs - start st) * 1000 + obs_tv_usec obs / 1000))
  /\ total_msec st obs = (obs_tv_sec obs - start st) * 1000 + obs_tv_usec obs / 1000.
Proof.
  intros st obs.
  assert (H1 : in_time (obs_tv_sec obs - start st))
    by (split; vm_compute; discriminate).
  assert (H2 : 0 <= obs_tv_usec obs < 1000000)
    by (split; vm_compute; [discriminate | reflexivity]).
  assert (H3 : in_int ((obs_tv_sec obs - start st) * 1000 + obs_tv_usec obs / 1000))
    by (split; vm_compute; discriminate).
  exact (conj (conj H1 (conj H2 H3)) (total_msec_exact st obs H1 H2 H3)).
Defined.
(** ** Invariants of the event loop *)

(** A predicate on recorded times that holds of every [total_msec] above
    1000 is kept by [handle_line]. *)
Lemma handle_line_ticks_forall (P : Z -> Prop) cfg st i obs :
  (forall tm, in_int tm -> tm > 1000 -> P tm) ->
  Forall P (ticks st) ->
  Forall P (ticks (handle_line cfg st i obs).1).
Proof.
  intros HP Hst. unfold handle_line.
  destruct (clock_error st obs); [assumption |].
  destruct (debounce_passed cfg st i (total_msec st obs)) eqn:Hd; [| assumption].
  cbn [fst ticks]. apply Forall_insert; [assumption |].
  apply HP; [apply total_msec_range |].
  unfold debounce_passed in Hd. apply andb_true_iff in Hd as [_ Hd].
  now apply Z.gtb_gt.
Qed.

Lemma handle_line_length cfg st i obs :
  length (ticks (handle_line cfg st i obs).1) = length (ticks st).
Proof.
  unfold handle_line.
  destruct (clock_error st obs); [reflexivity |].
  destruct (debounce_passed cfg st i (total_msec st obs)); [| reflexivity].
  cbn [fst ticks]. apply length_insert.
Qed.

(** An invariant of the state kept by every handled interrupt holds along
    the scan, and what each handled interrupt guarantees holds of every
    record of the history. *)
Lemma scan_lines_forall cfg (I : state -> Prop) (P : handled -> Prop) :
  (forall st i obs, I st ->
     I (handle_line cfg st i obs).1
     /\ P {| h_line := i; h_actions := (handle_line cfg st i obs).2;
             h_after := (handle_line cfg st i obs).1 |}) ->
  forall revents i st, I st ->
    I (scan_lines cfg i revents st).1 /\ Forall P (scan_lines cfg i revents st).2.
Proof.
  intros Hstep. induction revents as [|[obs|] rest IH]; intros i st Hst; simpl.
  - split; [assumption | constructor].
  - destruct (Hstep st i obs Hst) as [H1 HP].
    destruct (handle_line cfg st i obs) as [st1 acts]. cbn [fst snd] in *.
    destruct (IH (S i) st1 H1) as [H2 HF].
    destruct (scan_lines cfg (S i) rest st1) as [st2 hs]. cbn [fst snd] in *.
    split; [assumption | now constructor].
  - now apply IH.
Qed.

Lemma run_forall cfg (I : state -> Prop) (P : handled -> Prop) :
  (forall st i obs, I st ->
     I (handle_line cfg st i obs).1
     /\ P {| h_line := i; h_actions := (handle_line cfg st i obs).2;
             h_after := (handle_line cfg st i obs).1 |}) ->
  forall cycles st, I st ->
    I (run cfg st cycles).1 /\ Forall P (run cfg st cycles).2.
Proof.
  intros Hstep. induction cycles as [|c rest IH]; intros st Hst; simpl.
  - split; [assumption | constructor].
  - destruct (scan_lines_forall cfg I P Hstep (take (npins cfg) c) 0%nat st Hst)
      as [H1 HF1].
    fold (wake_cycle cfg st c) in H1, HF1.
    destruct (wake_cycle cfg st c) as [st1 h1]. cbn [fst snd] in *.
    destruct (IH st1 H1) as [H2 HF2].
    destruct (run cfg st1 rest) as [st2 h2]. cbn [fst snd] in *.
    split; [assumption | now apply Forall_app].
Qed.

(** Along any run that starts from the zeroed array, [ticks] keeps its
    [MAX_PINS] entries and each entry is either still 0 or a time above
    1000 that fits an [int]. *)
Theorem run_keeps_ticks_shape cfg now cycles :
  let st := (run cfg (initial_state now) cycles).1 in
  length (ticks st) = MAX_PINS /\ Forall fresh_or_late (ticks st).
Proof.
  intros st. subst st.
  destruct (run_forall cfg
              (fun st => length (ticks st) = MAX_PINS /\ Forall fresh_or_late (ticks st))
              (fun _ => True)) with (cycles := cycles) (st := initial_state now)
    as [H _]; [| | exact H].
  - intros st i obs [Hlen Hall]. split; [| exact I]. split.
    + now rewrite handle_line_length.
    + apply handle_line_ticks_forall; [| assumption].
      intros tm Hin Hgt. right. unfold in_int in Hin. lia.
  - split; [apply initial_state_length |].
    unfold initial_state; cbn [ticks]. apply Forall_forall. intros t Ht.
    apply elem_of_replicate in Ht as [-> _]. now left.
Qed.

(** A wake-up in which no line signalled (the [poll] timeout) changes
    nothing and does nothing. *)
Theorem wake_cycle_timeout cfg st revents :
  Forall (fun r => r = None) revents ->
  wake_cycle cfg st revents = (st, []).
Proof.
  intros Hnone. unfold wake_cycle.
  assert (Forall (fun r => r = None) (take (npins cfg) revents)) as H
    by now apply Forall_take.
  clear Hnone. generalize 0%nat.
  induction (take (npins cfg) revents) as [|r rest IH]; intros i; [reflexivity |].
  apply Forall_cons in H as [-> H]. simpl. now apply IH.
Qed.

Lemma scan_lines_lines cfg : forall revents i st,
  lines_of (scan_lines cfg i revents st).2 = signalled_from i revents.
Proof.
  induction revents as [|[obs|] rest IH]; intros i st; simpl.
  - reflexivity.
  - destruct (handle_line cfg st i obs) as [st1 acts].
    specialize (IH (S i) st1).
    destruct (scan_lines cfg (S i) rest st1) as [st2 hs]. cbn [fst snd] in *.
    unfold lines_of in *. cbn [map h_line]. now rewrite IH.
  - apply IH.
Qed.

Lemma increasing_from_weaken l : forall lo lo',
  (lo' <= lo)%nat -> increasing_from lo l -> increasing_from lo' l.
Proof.
  destruct l as [|x l]; simpl; intros lo lo' Hle H; [exact I |].
  destruct H as [H1 H2]. split; [lia | assumption].
Qed.

Lemma signalled_from_increasing : forall revents i,
  increasing_from i (signalled_from i revents)
  /\ Forall (fun l => (l < i + length revents)%nat) (signalled_from i revents).
Proof.
  induction revents as [|[obs|] rest IH]; intros i; simpl.
  - split; [exact I | constructor].
  - destruct (IH (S i)) as [H1 H2]. split; [split; [lia | assumption] |].
    constructor; [lia |]. eapply Forall_impl; [exact H2 |]. simpl. intros; lia.
  - destruct (IH (S i)) as [H1 H2]. split.
    + eapply increasing_from_weaken; [| exact H1]. lia.
    + eapply Forall_impl; [exact H2 |]. simpl. intros; lia.
Qed.

(** Within one wake-up every slot that signalled among the first [npins]
    is handled exactly once, in strictly increasing order of its index,
    whatever happened while the earlier ones were handled. *)
Theorem wake_cycle_in_line_order cfg st revents :
  let ls := lines_of (wake_cycle cfg st revents).2 in
  ls = signalled_from 0 (take (npins cfg) revents)
  /\ increasing_from 0 ls
  /\ Forall (fun l => (l < npins cfg)%nat) ls.
Proof.
  intros ls. subst ls. unfold wake_cycle. rewrite scan_lines_lines.
  destruct (signalled_from_increasing (take (npins cfg) revents) 0%nat) as [H1 H2].
  split; [reflexivity |]. split; [assumption |].
  eapply Forall_impl; [exact H2 |]. simpl. intros l Hl.
  rewrite length_take in Hl. lia.
Qed.

(** ** What reaches the pipe and the console *)

Lemma well_flushed_app a : forall pending b,
  well_flushed pending a = true -> well_flushed false b = true ->
  well_flushed pending (a ++ b) = true.
Proof.
  induction a as [|x a IH]; intros pending b Ha Hb; simpl in *.
  - destruct pending; [discriminate | assumption].
  - destruct x; try (apply andb_true_iff in Ha as [Hp Ha]; rewrite Hp; simpl);
      now apply IH.
Qed.

Lemma well_flushed_concat (ls : list (list action)) :
  Forall (fun l => well_flushed false l = true) ls ->
  well_flushed false (concat ls) = true.
Proof.
  induction 1 as [|l ls Hl _ IH]; simpl; [reflexivity |].
  now apply well_flushed_app.
Qed.

Lemma emitted_app a b : emitted (a ++ b) = emitted a ++ emitted b.
Proof. unfold emitted. apply omap_app. Qed.

Lemma samples_app a b : samples (a ++ b) = (samples a + samples b)%nat.
Proof. unfold samples. now rewrite filter_app, length_app. Qed.

Lemma samples_idle i : samples [ARead i] = 0%nat.
Proof. reflexivity. Qed.

Lemma samples_sampling i pin : samples [ARead i; AUsleep 2000; AGetPinState pin] = 1%nat.
Proof. reflexivity. Qed.

Lemma emit_output cfg pin s :
  well_flushed false (emit cfg pin s) = true
  /\ (debug cfg = true ->
      Forall (fun a => is_pipe_action a = false) (emit cfg pin s))
  /\ (debug cfg = false ->
      Forall (fun a => is_console_action a = false) (emit cfg pin s))
  /\ (length (emitted (emit cfg pin s)) <= 1)%nat.
Proof.
  rewrite emitted_emit. unfold emit.
  destruct (edge_selected cfg s), (debug cfg); simpl;
    repeat split; try discriminate; try (intros; repeat constructor); lia.
Qed.

(** What one handled interrupt does, by output mode. *)
Lemma handle_line_output cfg st i obs :
  let acts := (handle_line cfg st i obs).2 in
  well_flushed false acts = true
  /\ (debug cfg = true -> Forall (fun a => is_pipe_action a = false) acts)
  /\ (debug cfg = false -> Forall (fun a => is_console_action a = false) acts)
  /\ (length (emitted acts) <= samples acts <= 1)%nat.
Proof.
  intros acts. subst acts. unfold handle_line.
  destruct (clock_error st obs).
  { cbn [snd]. rewrite samples_idle.
    repeat split; try (intros; repeat constructor); simpl; lia. }
  destruct (debounce_passed cfg st i (total_msec st obs)).
  2: { cbn [snd]. rewrite samples_idle.
       repeat split; try (intros; repeat constructor); simpl; lia. }
  cbn [snd].
  destruct (emit_output cfg (pin_of cfg i) (get_pin_state (obs_value obs)))
    as (H1 & H2 & H3 & H4).
  rewrite samples_app, samples_sampling, samples_emit, emitted_app.
  split; [| split; [| split]].
  - apply well_flushed_app; [reflexivity | assumption].
  - intros Hd. apply Forall_app. split; [repeat constructor | auto].
  - intros Hd. apply Forall_app. split; [repeat constructor | auto].
  - rewrite length_app. simpl. lia.
Qed.

(** In any run every write to the pipe is followed at once by a flush; in
    debug mode nothing goes to the pipe, otherwise nothing goes to the
    console. *)
Theorem pipe_writes_are_flushed cfg st cycles :
  let acts := all_actions (run cfg st cycles).2 in
  well_flushed false acts = true
  /\ (debug cfg = true -> Forall (fun a => is_pipe_action a = false) acts)
  /\ (debug cfg = false -> Forall (fun a => is_console_action a = false) acts).
Proof.
  intros acts. subst acts.
  destruct (run_forall cfg (fun _ => True)
              (fun h => well_flushed false (h_actions h) = true
                        /\ (debug cfg = true ->
                            Forall (fun a => is_pipe_action a = false) (h_actions h))
                        /\ (debug cfg = false ->
                            Forall (fun a => is_console_action a = false) (h_actions h))))
    with (cycles := cycles) (st := st) as [_ H]; [| exact I |].
  { intros s i obs _. split; [exact I |]. cbn [h_actions].
    destruct (handle_line_output cfg s i obs) as (H1 & H2 & H3 & _). auto. }
  unfold all_actions. split; [| split].
  - apply well_flushed_concat. apply Forall_map.
    eapply Forall_impl; [exact H |]. simpl. tauto.
  - intros Hd. apply Forall_concat, Forall_map.
    eapply Forall_impl; [exact H |]. simpl. intros h (_ & Hh & _). auto.
  - intros Hd. apply Forall_concat, Forall_map.
    eapply Forall_impl; [exact H |]. simpl. intros h (_ & _ & Hh). auto.
Qed.


(** ** The pin state reader, read backwards *)

(** [get_pin_state] yields 1 exactly when the value file delivers two
    bytes of which the first is the digit 1, and 0 exactly when it
    delivers two bytes of which the first is the digit 0. *)
Theorem get_pin_state_level content :
  (get_pin_state content = 1 <->
     exists d, content = Some (String "1" (String d EmptyString)))
  /\ (get_pin_state content = 0 <->
     exists d, content = Some (String "0" (String d EmptyString))).
Proof.
  assert (forall c v, 0 <= v <= 1 ->
            char_code c - char_code "0" = v -> c = ascii_of_nat (Z.to_nat (v + 48))) as Hc.
  { intros c v Hv H. unfold char_code in H. change (nat_of_ascii "0") with 48%nat in H.
    rewrite <- (ascii_nat_embedding c). f_equal. lia. }
  split; split.
  - intros H. destruct content as [s|]; [| discriminate].
    destruct s as [|c [|d [|e s]]]; try discriminate.
    exists d. unfold get_pin_state in H. cbn in H.
    apply (Hc c 1) in H; [| lia]. now subst c.
  - intros [d ->]. reflexivity.
  - intros H. destruct content as [s|]; [| discriminate].
    destruct s as [|c [|d [|e s]]]; try discriminate.
    exists d. unfold get_pin_state in H. cbn in H.
    apply (Hc c 0) in H; [| lia]. now subst c.
  - intros [d ->]. reflexivity.
Qed.

(** ** The end of the range of [int] *)

Lemma handle_line_saturated cfg st i obs :
  0 <= bounce_time cfg ->
  ticks_ok st ->
  tick st i = int_max ->
  handle_line cfg st i obs = (st, [ARead i])
  \/ handle_line cfg st i obs =
       ({| start := obs_time_reset obs; ticks := ticks st |}, [ARead i]).
Proof.
  intros Hb Hok Hsat.
  destruct (clock_error st obs) eqn:Hclk.
  - right. now apply handle_line_reset.
  - left. apply handle_line_bounce; [assumption |].
    destruct (debounce_passed cfg st i (total_msec st obs)) eqn:Hd; [| reflexivity].
    pose proof (total_msec_range st obs) as Hr.
    apply (debounce_passed_iff cfg st i _ Hok Hr) in Hd.
    unfold in_int in Hr. lia.
Qed.

(** Once a line's entry of [ticks] holds [INT_MAX], no interrupt of that
    line is accepted again in any run, whatever the clock reads (for a
    bounce time that is not negative): no later [total_msec] can exceed
    it. *)
Theorem saturated_line_is_dead cfg st cycles l :
  0 <= bounce_time cfg ->
  ticks_ok st ->
  tick st l = int_max ->
  accepted_times l (run cfg st cycles).2 = []
  /\ tick (run cfg st cycles).1 l = int_max.
Proof.
  intros Hb Hok Hsat.
  destruct (run_forall cfg
              (fun s => ticks_ok s /\ tick s l = int_max)
              (fun h => h_line h = l -> accepted (h_actions h) = false))
    with (cycles := cycles) (st := st) as [[_ Hl] H]; [| auto |].
  { intros s i obs [Hs Hm]. cbn [h_line h_actions].
    destruct (Nat.eq_dec i l) as [-> | Hne].
    - destruct (handle_line_saturated cfg s l obs Hb Hs Hm) as [-> | ->];
        cbn [fst snd]; auto.
    - split; [split |].
      + apply handle_line_ticks_forall; [| exact Hs].
        intros tm Hin Hgt. unfold in_int in Hin. lia.
      + unfold handle_line.
        destruct (clock_error s obs); [exact Hm |].
        destruct (debounce_passed cfg s i (total_msec s obs)); [| exact Hm].
        cbn [fst]. rewrite tick_insert_other by assumption. exact Hm.
      + intros Heq. contradiction. }
  split; [| assumption].
  generalize dependent (run cfg st cycles).2. intros hs H.
  induction H as [|h hs Hh _ IH]; [reflexivity |].
  rewrite accepted_times_cons, IH, app_nil_r.
  destruct (Nat.eqb_spec (h_line h) l) as [Heq | Hne]; [| reflexivity].
  now rewrite (Hh Heq).
Qed.

(** Where the conversion of an out-of-range [double] saturates (as on
    ARM), an interrupt that arrives more than [INT_MAX] milliseconds
    after [start] and passes the guard is accepted with [INT_MAX] as its
    time, provided the line's last time lies more than the bounce time
    below [INT_MAX]. *)
Theorem saturation_records_int_max cfg st i obs :
  ticks_ok st ->
  (i < length (ticks st))%nat ->
  clock_error st obs = false ->
  time_sub (obs_tv_sec obs) (start st) * 1000 + msec_of obs > int_max ->
  obs_conv_oob obs = int_max ->
  int_max - tick st i > bounce_time cfg ->
  accepted (handle_line cfg st i obs).2 = true
  /\ tick (handle_line cfg st i obs).1 i = int_max.
Proof.
  intros Hok Hi Hclk Hlate Hsat Hgap.
  assert (total_msec st obs = int_max) as Htm.
  { unfold total_msec, double_to_int.
    replace (time_sub (obs_tv_sec obs) (start st) * 1000 + msec_of obs <=? int_max)
      with false by (symmetry; apply Z.leb_gt; lia).
    rewrite andb_false_r, Hsat. apply to_int_id. unfold in_int, int_min, int_max.
    change (2 ^ 31) with 2147483648. lia. }
  assert (debounce_passed cfg st i (total_msec st obs) = true) as Hd.
  { apply debounce_passed_iff; [assumption | apply total_msec_range |].
    rewrite Htm. unfold int_max in *. change (2 ^ 31) with 2147483648 in *. lia. }
  rewrite handle_line_accept by assumption. cbn [fst snd].
  rewrite accepted_emit, tick_insert_same by assumption. auto.
Qed.

(** ** The option loop *)

Lemma settings_after_nil s : settings_after s [] = s.
Proof.
  destruct s. unfold settings_after; simpl. now rewrite !orb_false_r.
Qed.

(** Running the loop on options that only assign prints nothing and
    yields the settings read off the list. *)
Lemma option_loop_ok argv0 V opts : forall s log,
  Forall (fun c => is_setting c = true) opts ->
  option_loop argv0 V s opts log = (log, Returns (settings_after s opts)).
Proof.
  induction opts as [|c opts IH]; intros s log Hall.
  - simpl. now rewrite settings_after_nil.
  - apply Forall_cons in Hall as [Hc Hall]. cbn [option_loop].
    rewrite bind_run.
    destruct c; try discriminate; cbn [set_option];
      unfold mret, proc_ret;
      rewrite (IH _ log Hall); unfold settings_after; cbn;
      rewrite ?orb_true_r, ?orb_false_r, ?orb_true_l; reflexivity.
Qed.

(** The first [-h], [-v] or unknown option ends the program. *)
Lemma option_loop_bad argv0 V opts : forall s,
  Exists (fun c => is_setting c = false) opts ->
  aborts (option_loop argv0 V s opts).
Proof.
  induction opts as [|c opts IH]; intros s Hex; [inversion Hex |].
  cbn [option_loop].
  destruct (is_setting c) eqn:Hc.
  - apply aborts_bind_r; [apply harmless_set_option |].
    intros s1. apply IH. inversion Hex; subst; [congruence | assumption].
  - apply aborts_bind_l.
    destruct c; try discriminate; cbn [set_option].
    + apply aborts_bind_r; [| intros; apply aborts_exit].
      unfold show_long_usage. apply harmless_for_each.
      intros x. now apply harmless_call.
    + apply aborts_bind_r; [| intros; apply aborts_exit].
      unfold show_version.
      repeat (apply harmless_bind; [now apply harmless_call | intros _]).
      now apply harmless_call.
    + apply aborts_show_short_usage.
Qed.

Lemma settings_or_not opts :
  Forall (fun c => is_setting c = true) opts
  \/ Exists (fun c => is_setting c = false) opts.
Proof.
  induction opts as [|c opts [IH | IH]].
  - left. constructor.
  - destruct (is_setting c) eqn:Hc.
    + left. now constructor.
    + right. now constructor.
  - right. now constructor 2.
Qed.

Lemma option_loop_returns argv0 V opts s log log' s' :
  option_loop argv0 V s opts log = (log', Returns s') ->
  log' = log /\ s' = settings_after s opts.
Proof.
  intros H.
  destruct (settings_or_not opts) as [Hall | Hex].
  - rewrite option_loop_ok in H by assumption. inversion H; auto.
  - exfalso. revert H. now apply aborts_not_returns, option_loop_bad.
Qed.

(** The options are read as a whole: [-d], [-e], [-n] and [-u] count
    wherever and however often they stand, the last [-b] gives the bounce
    time, the last of [-r] and [-f] the edge policy (so that [-r -f] is
    falling only, not both), and nothing is printed. *)
Theorem options_decide_settings argv0 V opts log :
  Forall (fun c => is_setting c = true) opts ->
  option_loop argv0 V default_settings opts log =
    (log, Returns
       {| s_bounce_time := last_bounce BOUNCE_MSEC opts;
          s_debug := existsb is_opt_d opts;
          s_export_only := existsb is_opt_e opts;
          s_no_export := existsb is_opt_n opts;
          s_unexport_only := existsb is_opt_u opts;
          s_edge := last_edge (Z.lor EDGE_RISING EDGE_FALLING) opts |}).
Proof.
  intros Hall. now rewrite option_loop_ok.
Qed.

(** As soon as [-h], [-v] or an option [getopt] does not know is among
    the options, [main] exits with status 255 whatever else is given,
    and touches no file. *)
Theorem help_version_unknown_exit E argv0 V opts args now log :
  Exists (fun c => is_setting c = false) opts ->
  exists l,
    main E argv0 V opts args now log = (log ++ l, Exits (-1))
    /\ exit_status (-1) = 255
    /\ Forall (fun c => is_acquisition c = false) l.
Proof.
  intros Hex.
  assert (aborts (main E argv0 V opts args now)) as Hab
    by (unfold main; apply aborts_bind_l; now apply option_loop_bad).
  destruct (Hab log) as (l & Hl & Hq). exists l. auto.
Qed.

(** ** The three ways through [main] *)

Lemma for_each_run {A} (body : A -> proc unit) (f : A -> list syscall) l :
  (forall x log, body x log = (log ++ f x, Returns tt)) ->
  forall log, for_each body l log = (log ++ concat (map f l), Returns tt).
Proof.
  intros Hbody. induction l as [|x l IH]; intros log; simpl.
  - now rewrite app_nil_r.
  - rewrite bind_run, Hbody, IH. now rewrite <- app_assoc.
Qed.

Lemma write_to_file_ok E file text log :
  fopen_ok E log file = true ->
  write_to_file E file text log = (log ++ [SysWrite file text], Returns tt).
Proof. intros H. unfold write_to_file. now rewrite H. Qed.

Lemma write_to_file_failed E file text log :
  fopen_ok E log file = false ->
  write_to_file E file text log =
    (log ++ [SysFopenFailed file;
             SysStderr ("Can't write to " +:+ file +:+ ": "
                        +:+ strerror_errno E +:+ nl)],
     Exits (-1)).
Proof.
  intros H. unfold write_to_file. rewrite H.
  cbv [mbind proc_bind call exit]. now rewrite <- app_assoc.
Qed.

Lemma export_pins_ok E ps log :
  (forall l f, fopen_ok E l f = true) ->
  export_pins E ps log = (log ++ concat (map export_writes ps), Returns tt).
Proof.
  intros Hok. unfold export_pins. apply for_each_run.
  intros pin l.
  do 2 (rewrite bind_run, write_to_file_ok by apply Hok).
  rewrite write_to_file_ok by apply Hok.
  unfold export_writes. now rewrite <- !app_assoc.
Qed.

Lemma unexport_pins_ok E ps log :
  (forall l, fopen_ok E l "/sys/class/gpio/unexport" = true) ->
  unexport_pins E ps log = (log ++ map unexport_write ps, Returns tt).
Proof.
  intros Hok. unfold unexport_pins.
  rewrite (for_each_run _ (fun pin => [unexport_write pin])).
  - f_equal. f_equal. induction ps as [|p ps IH]; simpl; [reflexivity | now rewrite IH].
  - intros pin l. now apply write_to_file_ok.
Qed.

Lemma open_values_ok E ps log :
  (forall l p, open_ok E l p = true) ->
  for_each (open_value E) ps log = (log ++ map open_value_call ps, Returns tt).
Proof.
  intros Hok.
  rewrite (for_each_run _ (fun pin => [open_value_call pin])).
  - f_equal. f_equal. induction ps as [|p ps IH]; simpl; [reflexivity | now rewrite IH].
  - intros pin l. unfold open_value. now rewrite Hok.
Qed.

Lemma pin_count_ok (args : list Z) :
  (1 <= length args <= MAX_PINS)%nat ->
  (length args <? 1)%nat = false /\ (MAX_PINS <? length args)%nat = false.
Proof. intros H. split; apply Nat.ltb_ge; lia. Qed.

Lemma mret_bind {A B} (a : A) (k : A -> proc B) log :
  (mret a ≫= k) log = k a log.
Proof. reflexivity. Qed.

(** Unfold [main] up to the test of [unexport_only]. *)
Ltac enter_main Hall Hn :=
  unfold main; rewrite bind_run, (option_loop_ok _ _ _ _ _ Hall);
  destruct (pin_count_ok _ Hn) as [-> ->];
  rewrite !mret_bind;
  cbn [settings_after default_settings s_unexport_only s_export_only
       s_no_export s_debug s_edge s_bounce_time orb].

(** With [-u], [main] writes every pin to the [unexport] file and exits
    with status 0; it exports nothing, opens nothing and installs no
    handler, also when [-e] or [-n] is given as well. *)
Theorem unexport_only_mode E argv0 V opts args now log :
  Forall (fun c => is_setting c = true) opts ->
  existsb is_opt_u opts = true ->
  (1 <= length args <= MAX_PINS)%nat ->
  (forall l, fopen_ok E l "/sys/class/gpio/unexport" = true) ->
  main E argv0 V opts args now log = (log ++ map unexport_write args, Exits 0).
Proof.
  intros Hall Hu Hn Hok. enter_main Hall Hn.
  rewrite Hu, !bind_run, unexport_pins_ok by assumption. reflexivity.
Qed.

(** With [-e] and without [-u], [main] exports every pin (the pin number
    to [export], "in" to its direction file, "both" to its edge file, in
    that order) and exits with status 0, also when [-n] is given; the edge
    file receives "both" whatever [-r] or [-f] say. *)
Theorem export_only_mode E argv0 V opts args now log :
  Forall (fun c => is_setting c = true) opts ->
  existsb is_opt_u opts = false ->
  existsb is_opt_e opts = true ->
  (1 <= length args <= MAX_PINS)%nat ->
  (forall l f, fopen_ok E l f = true) ->
  main E argv0 V opts args now log =
    (log ++ concat (map export_writes args), Exits 0).
Proof.
  intros Hall Hu He Hn Hok. enter_main Hall Hn.
  rewrite Hu, He, mret_bind, !bind_run, export_pins_ok by assumption.
  reflexivity.
Qed.

Lemma install_handlers_run log :
  install_handlers log =
    (log ++ map SysSignal [SIGQUIT; SIGTERM; SIGHUP; SIGINT; SIGPIPE], Returns tt).
Proof.
  unfold install_handlers.
  rewrite (for_each_run _ (fun s => [SysSignal s])); [reflexivity |].
  intros s l. reflexivity.
Qed.

Lemma open_pipe_ok E dbg log :
  (forall l f, fopen_ok E l f = true) ->
  open_pipe E dbg log =
    (log ++ (if dbg then []
             else [SysMkfifo DEFAULT_PIPE_FILENAME; SysFopenPipe DEFAULT_PIPE_FILENAME]),
     Returns tt).
Proof.
  intros Hok. unfold open_pipe. destruct dbg.
  - unfold mret, proc_ret. now rewrite app_nil_r.
  - rewrite bind_run. unfold call at 1, fopen_pipe. rewrite Hok.
    unfold call. now rewrite <- app_assoc.
Qed.

(** [main] from the test of [unexport_only] to the entry of the loop,
    when everything can be opened. *)
Ltac start_up Hall Hu He Hn Hf Ho :=
  enter_main Hall Hn;
  rewrite Hu, He; cbv iota; rewrite !mret_bind, bind_run;
  match goal with
  | |- context [existsb is_opt_n ?opts] => destruct (existsb is_opt_n opts)
  end;
  [ unfold mret at 1, proc_ret | rewrite (export_pins_ok _ _ _ Hf) ];
  rewrite bind_run, (open_values_ok _ _ _ Ho);
  rewrite bind_run, install_handlers_run;
  rewrite bind_run, (open_pipe_ok _ _ _ Hf).

(** When no mode option is given and every file can be opened, [main]
    exports every pin unless [-n] is given, opens the value file of every
    pin in order, installs the handler for the five signals, creates and
    opens the pipe unless [-d] is given, and enters the loop with the
    pins, the settings of the options and the zeroed debounce state. *)
Theorem normal_start_up E argv0 V opts args now log :
  Forall (fun c => is_setting c = true) opts ->
  existsb is_opt_u opts = false ->
  existsb is_opt_e opts = false ->
  (1 <= length args <= MAX_PINS)%nat ->
  (forall l f, fopen_ok E l f = true) ->
  (forall l p, open_ok E l p = true) ->
  main E argv0 V opts args now log =
    (log ++ (if existsb is_opt_n opts then [] else concat (map export_writes args))
         ++ map open_value_call args
         ++ map SysSignal [SIGQUIT; SIGTERM; SIGHUP; SIGINT; SIGPIPE]
         ++ (if existsb is_opt_d opts then []
             else [SysMkfifo DEFAULT_PIPE_FILENAME;
                   SysFopenPipe DEFAULT_PIPE_FILENAME]),
     Returns ({| pins := args;
                 no_export := existsb is_opt_n opts;
                 edge := last_edge (Z.lor EDGE_RISING EDGE_FALLING) opts;
                 bounce_time := last_bounce BOUNCE_MSEC opts;
                 debug := existsb is_opt_d opts |},
              initial_state now)).
Proof.
  intros Hall Hu He Hn Hf Ho.
  start_up Hall Hu He Hn Hf Ho; cbn [app]; now rewrite <- !app_assoc.
Qed.

(** ** Exporting and releasing *)

Lemma exports_app l1 l2 : exports (l1 ++ l2) = exports l1 ++ exports l2.
Proof. unfold exports. apply omap_app. Qed.

Lemma exports_export_writes ps :
  exports (concat (map export_writes ps)) = map fmt_d ps.
Proof.
  induction ps as [|p ps IH]; [reflexivity |].
  cbn [map concat]. rewrite exports_app, IH. reflexivity.
Qed.

Lemma releases_export_writes ps :
  releases (concat (map export_writes ps)) = [].
Proof.
  induction ps as [|p ps IH]; [reflexivity |].
  cbn [map concat]. rewrite releases_app, IH. reflexivity.
Qed.

Lemma exports_unexport_writes ps : exports (map unexport_write ps) = [].
Proof. induction ps as [|p ps IH]; [reflexivity | exact IH]. Qed.

Lemma releases_unexport_write ps : releases (map unexport_write ps) = map fmt_d ps.
Proof.
  induction ps as [|p ps IH]; [reflexivity |].
  cbn [map]. rewrite releases_cons, IH. reflexivity.
Qed.

Lemma exports_opens ps : exports (map open_value_call ps) = [].
Proof. induction ps as [|p ps IH]; [reflexivity | exact IH]. Qed.

Lemma releases_opens ps : releases (map open_value_call ps) = [].
Proof. induction ps as [|p ps IH]; [reflexivity | exact IH]. Qed.

(** A start-up in which everything can be opened followed by one of the
    five signals: the process exits with status 0, and the pins written
    to [unexport] are exactly the pins written to [export], in the same
    order: all of them, or none under [-n]. *)
Theorem start_up_then_signal_balanced E argv0 V opts args now log sig :
  Forall (fun c => is_setting c = true) opts ->
  existsb is_opt_u opts = false ->
  existsb is_opt_e opts = false ->
  (1 <= length args <= MAX_PINS)%nat ->
  (forall l f, fopen_ok E l f = true) ->
  (forall l p, open_ok E l p = true) ->
  exists log1 cfg st,
    main E argv0 V opts args now log = (log1, Returns (cfg, st))
    /\ (deliver E cfg sig log1).2 = Exits 0
    /\ exports (deliver E cfg sig log1).1
       = exports log ++ (if existsb is_opt_n opts then [] else map fmt_d args)
    /\ releases (deliver E cfg sig log1).1
       = releases log ++ (if existsb is_opt_n opts then [] else map fmt_d args).
Proof.
  intros Hall Hu He Hn Hf Ho.
  assert (forall cfg l, pins cfg = args ->
            deliver E cfg sig l =
              (l ++ (if no_export cfg then [] else map unexport_write args), Exits 0))
    as Hquit.
  { intros cfg l Hp. destruct sig; unfold deliver, quit_signal; rewrite bind_run;
      (destruct (no_export cfg);
       [ now rewrite app_nil_r
       | now rewrite Hp, unexport_pins_ok by (intros; apply Hf) ]). }
  start_up Hall Hu He Hn Hf Ho;
    (eexists; eexists; eexists; split; [reflexivity |]);
    rewrite Hquit by reflexivity; cbn [fst snd no_export];
    (split; [reflexivity |]);
    rewrite ?exports_app, ?releases_app, ?exports_export_writes,
      ?releases_export_writes, ?exports_unexport_writes, ?releases_unexport_write,
      ?exports_opens, ?releases_opens;
    (destruct (existsb is_opt_d opts));
    cbn; rewrite ?app_nil_r; auto.
Qed.

(** Whatever the file system does, the signal handler leaves through
    [exit], with 0 or with -1, and the pins it has written to [unexport]
    by then are an initial part of the pin list, in order: all of it when
    the exit code is 0 and export is not disabled, a proper part when the
    code is -1. *)
Theorem quit_signal_releases_prefix E cfg sig log :
  exists k c,
    (deliver E cfg sig log).2 = Exits c
    /\ releases (deliver E cfg sig log).1
       = releases log ++ map fmt_d (take k (pins cfg))
    /\ ((c = 0 /\ (no_export cfg = true /\ k = 0%nat
                   \/ no_export cfg = false /\ k = length (pins cfg)))
        \/ (c = -1 /\ no_export cfg = false /\ (k < length (pins cfg))%nat)).
Proof.
  assert (forall ps l, exists k,
            releases (unexport_pins E ps l).1 = releases l ++ map fmt_d (take k ps)
            /\ ((unexport_pins E ps l).2 = Returns tt /\ k = length ps
                \/ (unexport_pins E ps l).2 = Exits (-1) /\ (k < length ps)%nat))
    as Hloop.
  { induction ps as [|p ps IH]; intros l.
    - exists 0%nat. cbn. rewrite app_nil_r. auto.
    - unfold unexport_pins in *. cbn [for_each]. rewrite bind_run.
      destruct (fopen_ok E l "/sys/class/gpio/unexport") eqn:Hopen.
      + rewrite write_to_file_ok by assumption.
        destruct (IH (l ++ [unexport_write p])) as (k & Hrel & Hout).
        exists (S k). split.
        * change (l ++ [SysWrite "/sys/class/gpio/unexport" (fmt_d p)])
            with (l ++ [unexport_write p]).
          rewrite Hrel, releases_app. cbn [take map].
          rewrite <- app_assoc. reflexivity.
        * cbn [length].
          change (l ++ [SysWrite "/sys/class/gpio/unexport" (fmt_d p)])
            with (l ++ [unexport_write p]).
          destruct Hout as [[-> ->] | [-> Hk]]; [left | right]; split; auto; lia.
      + rewrite write_to_file_failed by assumption.
        exists 0%nat. cbn [fst snd take map length].
        rewrite releases_app, !app_nil_r. split; [reflexivity |].
        right. split; [reflexivity | lia]. }
  assert (deliver E cfg sig log = quit_signal E cfg log) as -> by now destruct sig.
  unfold quit_signal. rewrite bind_run.
  destruct (no_export cfg) eqn:Hne.
  - exists 0%nat, 0. unfold mret, proc_ret, exit. cbn [fst snd take map].
    rewrite app_nil_r. intuition auto.
  - destruct (Hloop (pins cfg) log) as (k & Hrel & Hout).
    destruct (unexport_pins E (pins cfg) log) as [l1 [[] | c]]; cbn [fst snd] in *.
    + destruct Hout as [[_ ->] | [Hc _]]; [| discriminate].
      exists (length (pins cfg)), 0. intuition auto.
    + destruct Hout as [[Hc _] | [Hc Hk]]; [discriminate |].
      inversion Hc; subst. exists k, (-1). intuition auto.
Qed.

(** ** The exit codes of [main] *)

Lemma exit_codes_ret {A} P (a : A) : exit_codes P (mret a : proc A).
Proof. intros log log' c H. discriminate. Qed.

Lemma exit_codes_exit {A} (P : Z -> Prop) c : P c -> exit_codes P (exit c : proc A).
Proof. intros Hc log log' c' H. inversion H; subst. assumption. Qed.

Lemma exit_codes_call P c : exit_codes P (call c).
Proof. intros log log' c' H. discriminate. Qed.

Lemma exit_codes_bind {A B} P (m : proc A) (k : A -> proc B) :
  exit_codes P m -> (forall a, exit_codes P (k a)) -> exit_codes P (m ≫= k).
Proof.
  intros Hm Hk log log' c. rewrite bind_run.
  destruct (m log) as [log1 [a | c1]] eqn:Hrun.
  - apply Hk.
  - intros H. inversion H; subst. eapply Hm; eauto.
Qed.

Lemma exit_codes_for_each {A} P (body : A -> proc unit) l :
  (forall x, exit_codes P (body x)) -> exit_codes P (for_each body l).
Proof.
  intros Hb. induction l as [|x l IH]; simpl.
  - apply exit_codes_ret.
  - apply exit_codes_bind; auto.
Qed.

Lemma exit_codes_harmless {A} (P : Z -> Prop) (m : proc A) :
  P (-1) -> harmless m -> exit_codes P m.
Proof.
  intros HP Hm log log' c H.
  destruct (Hm log) as (l & _ & [Hl | [a Hl]]); rewrite Hl in H;
    inversion H; subst; assumption.
Qed.

Lemma exit_codes_write_to_file (P : Z -> Prop) E file text :
  P (-1) -> exit_codes P (write_to_file E file text).
Proof.
  intros HP log log' c. unfold write_to_file.
  destruct (fopen_ok E log file).
  - apply exit_codes_call.
  - apply exit_codes_bind; [apply exit_codes_call | intros _].
    apply exit_codes_bind; [apply exit_codes_call | intros _].
    now apply exit_codes_exit.
Qed.

Lemma exit_codes_export_pins (P : Z -> Prop) E ps :
  P (-1) -> exit_codes P (export_pins E ps).
Proof.
  intros HP. apply exit_codes_for_each. intros pin.
  repeat (apply exit_codes_bind; [now apply exit_codes_write_to_file | intros _]).
  now apply exit_codes_write_to_file.
Qed.

(** [main] leaves with code 0 only in the export-only and unexport-only
    modes, and then only after all its writes succeeded; every other exit
    ([-h] and [-v] included) carries -1, which the parent sees as 255. *)
Theorem main_exit_codes E argv0 V opts args now log log' c :
  main E argv0 V opts args now log = (log', Exits c) ->
  c = -1
  \/ (c = 0 /\ (existsb is_opt_u opts = true \/ existsb is_opt_e opts = true)).
Proof.
  set (P := fun c : Z =>
              c = -1
              \/ (c = 0 /\ (existsb is_opt_u opts = true
                            \/ existsb is_opt_e opts = true))).
  assert (P (-1)) as HP by now left.
  change (main E argv0 V opts args now log = (log', Exits c) -> P c).
  unfold main. rewrite bind_run.
  destruct (option_loop argv0 V default_settings opts log) as [log1 [s | c1]] eqn:Hopt.
  2: { intros H. inversion H; subst.
       eapply (exit_codes_harmless P); [exact HP | apply harmless_option_loop | exact Hopt]. }
  apply option_loop_returns in Hopt as [-> ->].
  cbn [settings_after default_settings s_unexport_only s_export_only
       s_no_export s_debug s_edge s_bounce_time orb].
  revert log log' c.
  match goal with
  | |- forall l l' c, ?m l = (l', Exits c) -> _ => change (exit_codes P m)
  end.
  apply exit_codes_bind; [| intros _].
  { destruct (length args <? 1)%nat; [| apply exit_codes_ret].
    apply exit_codes_bind; [apply exit_codes_call | intros; now apply exit_codes_exit]. }
  apply exit_codes_bind; [| intros _].
  { destruct (MAX_PINS <? length args)%nat; [| apply exit_codes_ret].
    apply exit_codes_bind; [apply exit_codes_call | intros; now apply exit_codes_exit]. }
  apply exit_codes_bind; [| intros _].
  { destruct (existsb is_opt_u opts) eqn:Hu; [| apply exit_codes_ret].
    apply exit_codes_bind.
    - apply exit_codes_for_each. intros pin. now apply exit_codes_write_to_file.
    - intros _. apply exit_codes_exit. right. auto. }
  apply exit_codes_bind; [| intros _].
  { destruct (existsb is_opt_e opts) eqn:He; [| apply exit_codes_ret].
    apply exit_codes_bind; [now apply exit_codes_export_pins |].
    intros _. apply exit_codes_exit. right. auto. }
  apply exit_codes_bind; [| intros _].
  { destruct (existsb is_opt_n opts); [apply exit_codes_ret |].
    now apply exit_codes_export_pins. }
  apply exit_codes_bind; [| intros _].
  { apply exit_codes_for_each. intros pin l l' c'. unfold open_value.
    destruct (open_ok E l (gpio_file pin "value")).
    - apply exit_codes_call.
    - apply exit_codes_bind; [apply exit_codes_call | intros _].
      apply exit_codes_bind; [apply exit_codes_call | intros _].
      now apply exit_codes_exit. }
  apply exit_codes_bind; [| intros _].
  { apply exit_codes_for_each. intros x. apply exit_codes_call. }
  apply exit_codes_bind; [| intros _; apply exit_codes_ret].
  unfold open_pipe. destruct (existsb is_opt_d opts); [apply exit_codes_ret |].
  apply exit_codes_bind; [apply exit_codes_call | intros _].
  intros l l' c'. unfold fopen_pipe.
  destruct (fopen_ok E l DEFAULT_PIPE_FILENAME).
  - apply exit_codes_call.
  - apply exit_codes_bind; [apply exit_codes_call | intros _].
    apply exit_codes_bind; [apply exit_codes_call | intros _].
    now apply exit_codes_exit.
Qed.

(** ** The further theorems at concrete inputs *)

(** [wake_cycle_timeout] at a wake-up in which neither pin signalled. *)
Lemma wake_cycle_timeout_witness :
  Forall (fun r : option observation => r = None) [None; None]
  /\ wake_cycle example_cfg (initial_state 1000) [None; None]
     = (initial_state 1000, []).
Proof.
  assert (H : Forall (fun r : option observation => r = None) [None; None])
    by (repeat constructor).
  exact (conj H (wake_cycle_timeout example_cfg (initial_state 1000) [None; None] H)).
Defined.

(** [saturated_line_is_dead] at two interrupts of line 0, a minute apart. *)
Lemma saturated_line_is_dead_witness :
  let cycles := [[Some late_observation]; [Some (observe 3000060 0 (Some ("0" +:+ nl)))]] in
  (0 <= bounce_time example_cfg
   /\ ticks_ok saturated_state
   /\ tick saturated_state 0 = int_max)
  /\ accepted_times 0 (run example_cfg saturated_state cycles).2 = []
  /\ tick (run example_cfg saturated_state cycles).1 0 = int_max.
Proof.
  intros cycles.
  assert (H1 : 0 <= bounce_time example_cfg) by (vm_compute; discriminate).
  assert (H2 : ticks_ok saturated_state).
  { apply (ticks_ok_insert (initial_state 0) 0 int_max 0);
      [apply initial_state_ok | split; vm_compute; discriminate]. }
  assert (H3 : tick saturated_state 0 = int_max) by reflexivity.
  exact (conj (conj H1 (conj H2 H3))
           (saturated_line_is_dead example_cfg saturated_state cycles 0%nat H1 H2 H3)).
Defined.

(** [saturation_records_int_max] at the first interrupt after 34 days. *)
Lemma saturation_records_int_max_witness :
  let st := initial_state 0 in
  let obs := late_observation in
  (ticks_ok st /\ (0 < length (ticks st))%nat
   /\ clock_error st obs = false
   /\ time_sub (obs_tv_sec obs) (start st) * 1000 + msec_of obs > int_max
   /\ obs_conv_oob obs = int_max
   /\ int_max - tick st 0 > bounce_time example_cfg)
  /\ accepted (handle_line example_cfg st 0 obs).2 = true
  /\ tick (handle_line example_cfg st 0 obs).1 0 = int_max.
Proof.
  intros st obs.
  assert (H1 : ticks_ok st) by apply initial_state_ok.
  assert (H2 : (0 < length (ticks st))%nat) by (vm_compute; lia).
  assert (H4 : time_sub (obs_tv_sec obs) (start st) * 1000 + msec_of obs > int_max)
    by (vm_compute; reflexivity).
  assert (H6 : int_max - tick st 0 > bounce_time example_cfg)
    by (vm_compute; reflexivity).
  exact (conj (conj H1 (conj H2 (conj eq_refl (conj H4 (conj eq_refl H6)))))
           (saturation_records_int_max example_cfg st 0%nat obs
              H1 H2 eq_refl H4 eq_refl H6)).
Defined.

(** [options_decide_settings] at [-r -b 50 -f -d -b 120]. *)
Lemma options_decide_settings_witness :
  let opts := [OptR; OptB 50; OptF; OptD; OptB 120] in
  Forall (fun c => is_setting c = true) opts
  /\ option_loop "pi-button-pipe" "1.0" default_settings opts [] =
       ([], Returns
          {| s_bounce_time := 120; s_debug := true; s_export_only := false;
             s_no_export := false; s_unexport_only := false;
             s_edge := EDGE_FALLING |}).
Proof.
  intros opts.
  assert (H : Forall (fun c => is_setting c = true) opts) by (repeat constructor).
  exact (conj H (options_decide_settings "pi-button-pipe" "1.0" opts [] H)).
Defined.

(** [help_version_unknown_exit] at [-n -v 17]. *)
Lemma help_version_unknown_exit_witness :
  Exists (fun c => is_setting c = false) [OptN; OptV]
  /\ exists l,
       main all_ok "pi-button-pipe" "1.0" [OptN; OptV] [17] 1000 [] = ([] ++ l, Exits (-1))
       /\ exit_status (-1) = 255
       /\ Forall (fun c => is_acquisition c = false) l.
Proof.
  assert (H : Exists (fun c => is_setting c = false) [OptN; OptV])
    by (constructor 2; constructor 1; reflexivity).
  exact (conj H (help_version_unknown_exit all_ok "pi-button-pipe" "1.0"
                   [OptN; OptV] [17] 1000 [] H)).
Defined.

(** [unexport_only_mode] at [-u -e 17 27]. *)
Lemma unexport_only_mode_witness :
  (Forall (fun c => is_setting c = true) [OptU; OptE]
   /\ existsb is_opt_u [OptU; OptE] = true
   /\ (1 <= length [17; 27] <= MAX_PINS)%nat
   /\ (forall l, fopen_ok all_ok l "/sys/class/gpio/unexport" = true))
  /\ main all_ok "pi-button-pipe" "1.0" [OptU; OptE] [17; 27] 1000 []
     = ([] ++ map unexport_write [17; 27], Exits 0).
Proof.
  assert (H1 : Forall (fun c => is_setting c = true) [OptU; OptE])
    by (repeat constructor).
  assert (H3 : (1 <= length [17; 27] <= MAX_PINS)%nat) by (vm_compute; lia).
  exact (conj (conj H1 (conj eq_refl (conj H3 (fun _ => eq_refl))))
           (unexport_only_mode all_ok "pi-button-pipe" "1.0" [OptU; OptE] [17; 27]
              1000 [] H1 eq_refl H3 (fun _ => eq_refl))).
Defined.

(** [export_only_mode] at [-e -n -r 17 27]. *)
Lemma export_only_mode_witness :
  (Forall (fun c => is_setting c = true) [OptE; OptN; OptR]
   /\ existsb is_opt_u [OptE; OptN; OptR] = false
   /\ existsb is_opt_e [OptE; OptN; OptR] = true
   /\ (1 <= length [17; 27] <= MAX_PINS)%nat
   /\ (forall l f, fopen_ok all_ok l f = true))
  /\ main all_ok "pi-button-pipe" "1.0" [OptE; OptN; OptR] [17; 27] 1000 []
     = ([] ++ concat (map export_writes [17; 27]), Exits 0).
Proof.
  assert (H1 : Forall (fun c => is_setting c = true) [OptE; OptN; OptR])
    by (repeat constructor).
  assert (H4 : (1 <= length [17; 27] <= MAX_PINS)%nat) by (vm_compute; lia).
  exact (conj (conj H1 (conj eq_refl (conj eq_refl (conj H4 (fun _ _ => eq_refl)))))
           (export_only_mode all_ok "pi-button-pipe" "1.0" [OptE; OptN; OptR] [17; 27]
              1000 [] H1 eq_refl eq_refl H4 (fun _ _ => eq_refl))).
Defined.

(** [normal_start_up] at [-f -b 50 17 27]. *)
Lemma normal_start_up_witness :
  let opts := [OptF; OptB 50] in
  (Forall (fun c => is_setting c = true) opts
   /\ existsb is_opt_u opts = false
   /\ existsb is_opt_e opts = false
   /\ (1 <= length [17; 27] <= MAX_PINS)%nat
   /\ (forall l f, fopen_ok all_ok l f = true)
   /\ (forall l p, open_ok all_ok l p = true))
  /\ main all_ok "pi-button-pipe" "1.0" opts [17; 27] 1000 [] =
       ([] ++ (if existsb is_opt_n opts then [] else concat (map export_writes [17; 27]))
           ++ map open_value_call [17; 27]
           ++ map SysSignal [SIGQUIT; SIGTERM; SIGHUP; SIGINT; SIGPIPE]
           ++ (if existsb is_opt_d opts then []
               else [SysMkfifo DEFAULT_PIPE_FILENAME;
                     SysFopenPipe DEFAULT_PIPE_FILENAME]),
        Returns ({| pins := [17; 27];
                    no_export := existsb is_opt_n opts;
                    edge := last_edge (Z.lor EDGE_RISING EDGE_FALLING) opts;
                    bounce_time := last_bounce BOUNCE_MSEC opts;
                    debug := existsb is_opt_d opts |},
                 initial_state 1000)).
Proof.
  intros opts.
  assert (H1 : Forall (fun c => is_setting c = true) opts) by (repeat constructor).
  assert (H4 : (1 <= length [17; 27] <= MAX_PINS)%nat) by (vm_compute; lia).
  exact (conj (conj H1 (conj eq_refl (conj eq_refl
                 (conj H4 (conj (fun _ _ => eq_refl) (fun _ _ => eq_refl))))))
           (normal_start_up all_ok "pi-button-pipe" "1.0" opts [17; 27] 1000 []
              H1 eq_refl eq_refl H4 (fun _ _ => eq_refl) (fun _ _ => eq_refl))).
Defined.

(** [start_up_then_signal_balanced] at pins 17 and 27 and SIGTERM. *)
Lemma start_up_then_signal_balanced_witness :
  (Forall (fun c => is_setting c = true) []
   /\ existsb is_opt_u [] = false
   /\ existsb is_opt_e [] = false
   /\ (1 <= length [17; 27] <= MAX_PINS)%nat
   /\ (forall l f, fopen_ok all_ok l f = true)
   /\ (forall l p, open_ok all_ok l p = true))
  /\ exists log1 cfg st,
       main all_ok "pi-button-pipe" "1.0" [] [17; 27] 1000 [] = (log1, Returns (cfg, st))
       /\ (deliver all_ok cfg SIGTERM log1).2 = Exits 0
       /\ exports (deliver all_ok cfg SIGTERM log1).1
          = exports [] ++ (if existsb is_opt_n [] then [] else map fmt_d [17; 27])
       /\ releases (deliver all_ok cfg SIGTERM log1).1
          = releases [] ++ (if existsb is_opt_n [] then [] else map fmt_d [17; 27]).
Proof.
  assert (H1 : Forall (fun c => is_setting c = true) []) by constructor.
  assert (H4 : (1 <= length [17; 27] <= MAX_PINS)%nat) by (vm_compute; lia).
  exact (conj (conj H1 (conj eq_refl (conj eq_refl
                 (conj H4 (conj (fun _ _ => eq_refl) (fun _ _ => eq_refl))))))
           (start_up_then_signal_balanced all_ok "pi-button-pipe" "1.0" [] [17; 27]
              1000 [] SIGTERM H1 eq_refl eq_refl H4
              (fun _ _ => eq_refl) (fun _ _ => eq_refl))).
Defined.

(** [main_exit_codes] at a value file that cannot be opened. *)
Lemma main_exit_codes_witness :
  let r := main value_unreadable "pi-button-pipe" "1.0" [] [17] 1000 [] in
  r = (r.1, Exits (-1))
  /\ (-1 = -1
      \/ (-1 = 0 /\ (existsb is_opt_u [] = true \/ existsb is_opt_e [] = true))).
Proof.
  intros r.
  assert (H : r = (r.1, Exits (-1))) by reflexivity.
  exact (conj H (main_exit_codes value_unreadable "pi-button-pipe" "1.0" [] [17]
                   1000 [] r.1 (-1) H)).
Defined.

(** ** Elapsed time beyond the range of [int] *)

(** C1, the code at the failing input.  The program started at time 0 and
    pin 17 signals 3000000 s (34.7 days) later, well inside the year the
    clock guard allows: 3000000000 ms have elapsed, which is more than the
    bounce time after the line's last time 0 and more than 1000.  Where
    the conversion to [int] yields [INT_MIN] the interrupt is not
    accepted.  Where it saturates the interrupt is accepted, but the time
    recorded is [INT_MAX], not the elapsed milliseconds, and an interrupt
    one minute later, 60000 ms after the accepted one, is not accepted. *)
Lemma long_uptime_breaks_debounce :
  let st := initial_state 0 in
  let r_min := handle_line example_cfg st 0 late_observation_min in
  let r_sat := handle_line example_cfg st 0 late_observation in
  let r_next := handle_line example_cfg r_sat.1 0 minute_later_observation in
  (clock_error st late_observation_min = false
   /\ elapsed_ms st late_observation_min = 3000000000
   /\ elapsed_ms st late_observation_min - tick st 0 > bounce_time example_cfg
   /\ elapsed_ms st late_observation_min > 1000
   /\ accepted r_min.2 = false /\ r_min.1 = st)
  /\ (clock_error st late_observation = false
      /\ elapsed_ms st late_observation = 3000000000
      /\ accepted r_sat.2 = true
      /\ tick r_sat.1 0 = 2147483647)
  /\ (clock_error r_sat.1 minute_later_observation = false
      /\ elapsed_ms r_sat.1 minute_later_observation = 3000060000
      /\ elapsed_ms r_sat.1 minute_later_observation
         - elapsed_ms st late_observation > bounce_time example_cfg
      /\ accepted r_next.2 = false
      /\ emitted r_next.2 = []).
Proof. repeat split. Qed.

(** ** The debounce test on elapsed time *)

Lemma total_msec_is_elapsed st obs :
  in_time (obs_tv_sec obs - start st) ->
  0 <= obs_tv_usec obs < 1000000 ->
  in_int (elapsed_ms st obs) ->
  total_msec st obs = elapsed_ms st obs.
Proof.
  unfold elapsed_ms. intros Ht Hu Hi. unfold total_msec, msec_of, time_sub.
  rewrite to_time_id by assumption.
  rewrite Z.quot_div_nonneg by lia.
  assert (0 <= obs_tv_usec obs / 1000 < 1000) as Hm.
  { split; [apply Z.div_pos; lia | apply Z.div_lt_upper_bound; lia]. }
  rewrite to_int_id by (apply in_int_bounds; lia).
  now apply double_to_int_exact.
Qed.

(** While the milliseconds elapsed since [start] fit an [int] (about 24.8
    days), an interrupt that passes the clock guard is accepted, and the
    line's entry of [ticks] set to the elapsed milliseconds, exactly when
    the elapsed milliseconds exceed the line's last time by more than the
    bounce time and exceed 1000; otherwise nothing changes and nothing is
    written.  In particular nothing is accepted in the first 1000 ms. *)
Theorem debounce_on_elapsed_time cfg st i obs :
  ticks_ok st ->
  (i < length (ticks st))%nat ->
  clock_error st obs = false ->
  in_time (obs_tv_sec obs - start st) ->
  0 <= obs_tv_usec obs < 1000000 ->
  in_int (elapsed_ms st obs) ->
  let ms := elapsed_ms st obs in
  let r := handle_line cfg st i obs in
  (accepted r.2 = true <-> ms - tick st i > bounce_time cfg /\ ms > 1000)
  /\ (accepted r.2 = true ->
      r.1 = {| start := start st; ticks := <[i := ms]> (ticks st) |}
      /\ tick r.1 i = ms)
  /\ (accepted r.2 = false -> r.1 = st /\ emitted r.2 = [])
  /\ (ms <= 1000 -> accepted r.2 = false /\ r.1 = st /\ emitted r.2 = []).
Proof.
  intros Hok Hi Hclk Ht Hu Hin ms r. subst ms r.
  rewrite <- (total_msec_is_elapsed st obs Ht Hu Hin).
  pose proof (debounce_passed_iff cfg st i (total_msec st obs) Hok
                (total_msec_range st obs)) as Hiff.
  destruct (debounce_passed cfg st i (total_msec st obs)) eqn:Hd.
  - rewrite (handle_line_accept cfg st i obs Hclk Hd). cbn [fst snd].
    rewrite accepted_emit. cbn [accepted existsb is_sample orb].
    destruct Hiff as [Hiff _]. specialize (Hiff eq_refl).
    split; [tauto |].
    split; [intros _; split; [reflexivity | now apply tick_insert_same] |].
    split; [discriminate | intros; lia].
  - rewrite (handle_line_bounce cfg st i obs Hclk Hd). cbn [fst snd].
    split; [split; [discriminate | intros H; apply Hiff in H; discriminate] |].
    split; [discriminate |].
    split; intros; repeat split; reflexivity.
Qed.

(** [debounce_on_elapsed_time] at pin 17, 1200 ms after start. *)
Lemma debounce_on_elapsed_time_witness :
  let st := initial_state 1000 in
  let obs := observe 1001 200000 (Some ("1" +:+ nl)) in
  let ms := elapsed_ms st obs in
  let r := handle_line example_cfg st 0 obs in
  (ticks_ok st /\ (0 < length (ticks st))%nat /\ clock_error st obs = false
   /\ in_time (obs_tv_sec obs - start st)
   /\ 0 <= obs_tv_usec obs < 1000000
   /\ in_int (elapsed_ms st obs))
  /\ ms = 1200
  /\ (accepted r.2 = true <-> ms - tick st 0 > bounce_time example_cfg /\ ms > 1000)
  /\ (accepted r.2 = true ->
      r.1 = {| start := start st; ticks := <[0%nat := ms]> (ticks st) |}
      /\ tick r.1 0 = ms)
  /\ (accepted r.2 = false -> r.1 = st /\ emitted r.2 = [])
  /\ (ms <= 1000 -> accepted r.2 = false /\ r.1 = st /\ emitted r.2 = []).
Proof.
  intros st obs ms r.
  assert (H1 : ticks_ok st) by apply initial_state_ok.
  assert (H2 : (0 < length (ticks st))%nat) by (vm_compute; lia).
  assert (H3 : clock_error st obs = false) by reflexivity.
  assert (H4 : in_time (obs_tv_sec obs - start st))
    by (split; vm_compute; discriminate).
  assert (H5 : 0 <= obs_tv_usec obs < 1000000)
    by (split; vm_compute; [discriminate | reflexivity]).
  assert (H6 : in_int (elapsed_ms st obs)) by (split; vm_compute; discriminate).
  exact (conj (conj H1 (conj H2 (conj H3 (conj H4 (conj H5 H6)))))
           (conj eq_refl
              (debounce_on_elapsed_time example_cfg st 0%nat obs H1 H2 H3 H4 H5 H6))).
Defined.
